(** * ponylist.py: table extraction and row normalisation

    A shallow embedding of [src/ponylist.py] (Python 2).  Byte strings
    ([str]) are [string]; a parsed page is a small element tree with the
    BeautifulSoup queries the program calls; Python lists that the program
    mutates in place live in a store indexed by object identity. *)

From stdpp Require Import gmap strings list pretty.
From Stdlib Require Import Ascii String.

Local Open Scope string_scope.
#[local] Arguments String.append !s1 s2 : simpl nomatch.

(** ** Python 2 [str] operations used by the program *)

Module PyStr.

(** [str.isspace] on a byte of the C locale: tab, LF, VT, FF, CR, space. *)
Definition is_space (c : ascii) : bool :=
  let n := nat_of_ascii c in
  ((9 <=? n)%nat && (n <=? 13)%nat) || (n =? 32)%nat.

Fixpoint lstrip (s : string) : string :=
  match s with
  | EmptyString => EmptyString
  | String c s' => if is_space c then lstrip s' else s
  end.

Fixpoint rstrip (s : string) : string :=
  match s with
  | EmptyString => EmptyString
  | String c s' =>
      match rstrip s' with
      | EmptyString => if is_space c then EmptyString else String c EmptyString
      | r => String c r
      end
  end.

(** [s.strip()] *)
Definition strip (s : string) : string := rstrip (lstrip s).

Fixpoint drop (n : nat) (s : string) : string :=
  match n, s with
  | S k, String _ s' => drop k s'
  | _, _ => s
  end.

(** [sub in s] *)
Fixpoint contains (sub s : string) : bool :=
  String.prefix sub s ||
  match s with
  | EmptyString => false
  | String _ s' => contains sub s'
  end.

(** The scan of [s.replace(old, new)]: left to right, a match of [old] is
    replaced by [new] and the scan resumes after it.  [skip] counts the
    characters of the current match that are still to be passed over. *)
Fixpoint replace_scan (old new : string) (skip : nat) (s : string) : string :=
  match s with
  | EmptyString => EmptyString
  | String c s' =>
      match skip with
      | S k => replace_scan old new k s'
      | O =>
          if String.prefix old s
          then new +:+ replace_scan old new (String.length old - 1) s'
          else String c (replace_scan old new 0 s')
      end
  end.

(** An empty [old] matches before every character and once more at the
    end of [s]. *)
Fixpoint replace_empty (new s : string) : string :=
  match s with
  | EmptyString => new
  | String c s' => new +:+ String c (replace_empty new s')
  end.

(** [s.replace(old, new)] *)
Definition replace (old new s : string) : string :=
  match old with
  | EmptyString => replace_empty new s
  | _ => replace_scan old new 0 s
  end.

(** [sep.join(pieces)] *)
Fixpoint join (sep : string) (pieces : list string) : string :=
  match pieces with
  | [] => EmptyString
  | [p] => p
  | p :: rest => p +:+ sep +:+ join sep rest
  end.

(** [s] has an occurrence of [sub]. *)
Definition occurs (sub s : string) : Prop :=
  ∃ p q, s = p +:+ sub +:+ q.

(** First and last byte are whitespace, respectively. *)
Definition head_space (s : string) : bool :=
  match s with
  | EmptyString => false
  | String c _ => is_space c
  end.

Fixpoint last_space (s : string) : bool :=
  match s with
  | EmptyString => false
  | String c EmptyString => is_space c
  | String _ s' => last_space s'
  end.

Fixpoint all_space (s : string) : bool :=
  match s with
  | EmptyString => true
  | String c s' => is_space c && all_space s'
  end.

End PyStr.

Import PyStr.

(** ** Exceptions *)

(** The exceptions the program can raise.  [SystemError] stands for a
    reference to no object, which no Python program can hold; it keeps the
    store total. *)
Inductive exn : Set :=
| IndexError
| KeyError
| AttributeError
| UnboundLocalError
| SystemError.

Inductive outcome (A : Type) : Type :=
| Returns (a : A)
| Raises (e : exn).

Arguments Returns {A} a.
Arguments Raises {A} e.

#[global] Instance outcome_ret : MRet outcome := @Returns.
#[global] Instance outcome_bind : MBind outcome := λ A B f m,
  match m with
  | Returns a => f a
  | Raises e => Raises e
  end.

(** ** A parsed page and the BeautifulSoup queries of the program *)

#[warnings="-register-all"]
Inductive node : Type :=
| Text (s : string)
| Elem (tag : string) (attrs : list (string * string)) (children : list node).

(** The elements and strings below [n], in document order. *)
Fixpoint descendants (n : node) : list node :=
  match n with
  | Text _ => []
  | Elem _ _ children => flat_map (λ c, c :: descendants c) children
  end.

Definition is_tag (name : string) (n : node) : bool :=
  match n with
  | Text _ => false
  | Elem tag _ _ => bool_decide (tag = name)
  end.

(** [n.findAll(name)] *)
Definition findAll (name : string) (n : node) : list node :=
  List.filter (is_tag name) (descendants n).

(** [n.find(name)]: the first match, or [None]. *)
Definition find (name : string) (n : node) : option node :=
  head (findAll name n).

(** [n.text]: the strings below [n], concatenated.  The page's text is
    kept in its UTF-8 encoding, so [.encode('utf-8')] is the identity. *)
Fixpoint text (n : node) : string :=
  match n with
  | Text s => s
  | Elem _ _ children => fold_right (λ c acc, text c +:+ acc) "" children
  end.

Definition encode_utf8 (s : string) : string := s.

(** [d.get(key, default)] on an attribute dictionary. *)
Fixpoint dict_get (d : list (string * string)) (key default : string) : string :=
  match d with
  | [] => default
  | (k, v) :: d' => if bool_decide (k = key) then v else dict_get d' key default
  end.

Definition attrs (n : node) : list (string * string) :=
  match n with
  | Text _ => []
  | Elem _ a _ => a
  end.

(** ** [table_to_list] *)

(** A row of the result: a Python list of byte strings. *)
Abbreviation row := (list string) (only parsing).

(** The body of [for row in table_rows], with [cells] known to be
    non-empty: [c] is its first element. *)
Definition row_of_cells (c : node) (cs : list node) : row :=
  let cells := c :: cs in
  let utf8_row := (λ cell, encode_utf8 (text cell)) <$> removelast cells in
  match find "a" (List.last cells c) with
  | Some a =>
      let link := dict_get (attrs a) "href" "None" in
      (utf8_row ++ [encode_utf8 link])%list
  | None => utf8_row
  end.

Fixpoint scan_rows (table_rows : list node) (list_of_rows : list row) : list row :=
  match table_rows with
  | [] => list_of_rows
  | r :: rest =>
      match findAll "td" r with
      | [] => scan_rows rest list_of_rows
      | c :: cs => scan_rows rest (list_of_rows ++ [row_of_cells c cs])%list
      end
  end.

Definition header_of (row0 : node) : row :=
  (λ cell, strip (encode_utf8 (text cell))) <$> findAll "th" row0.

Definition table_to_list (table : node) : outcome (list row) :=
  let table_rows := findAll "tr" table in
  match table_rows with
  | [] => Raises IndexError
  | row0 :: _ => Returns (scan_rows table_rows [header_of row0])
  end.

(** *** Sample tables *)

Definition th (s : string) : node := Elem "th" [] [Text s].
Definition td (s : string) : node := Elem "td" [] [Text s].
Definition td_link (href : string) : node :=
  Elem "td" [] [Elem "a" [("href", href)] [Elem "img" [("src", href)] []]].
Definition td_anchor : node :=
  Elem "td" [] [Elem "a" [("name", "top")] [Text "top"]].
Definition tr (cells : list node) : node := Elem "tr" [] cells.

Definition sample_table : node :=
  Elem "table" [("class", "wikitable sortable listofponies")]
    [ tr [th " Name "; th "Kind"; th "Image
"];
      tr [td "Applejack
"; td "Earth"; td_link "/wiki/File:Applejack.png"];
      tr [];
      tr [td "Unnamed Mare #3"; td "Pegasus"; td "no picture"];
      tr [td "Big/Small"; td "Unicorn"; td_anchor] ].

(** ** The store: Python lists by identity *)

(** [process_rows] assigns to [r[0]] of the row objects it is given, so a
    row is a location of the store and a row sequence a list of locations
    (the same object may occur twice). *)
Abbreviation loc := nat (only parsing).
Abbreviation heap := (gmap nat row) (only parsing).

(** The contents of a row sequence. *)
Definition read (h : heap) (rows : list loc) : list (option row) :=
  (λ r, h !! r) <$> rows.

(** A fresh list object. *)
Definition alloc (r : row) (h : heap) : loc * heap :=
  let l := fresh (dom h) in (l, <[l := r]> h).

Fixpoint alloc_rows (rs : list row) (h : heap) : list loc * heap :=
  match rs with
  | [] => ([], h)
  | r :: rest =>
      let '(l, h1) := alloc r h in
      let '(ls, h2) := alloc_rows rest h1 in
      (l :: ls, h2)
  end.

(** ** Options *)

(** The namespace [argparse] hands to the program. *)
Record Args : Type := {
  type_ : string;
  verbose : nat;
  quiet : bool;
  images : bool;
  names : bool;
  format : option string;
  strip_labels : bool;
  known : bool
}.

(** [URLS], a dictionary, as the list of its items in the order of the
    source text.  Looking a key up does not depend on that order; the
    order in which Python 2 iterates over the dictionary does not follow
    it (see [URLS_values] below). *)
Definition URLS : list (string * string) :=
  [ ("unicorns", "http://mlp.wikia.com/wiki/List_of_ponies/Unicorn_ponies");
    ("pegasus", "http://mlp.wikia.com/wiki/List_of_ponies/Pegasus_ponies");
    ("earthponies", "http://mlp.wikia.com/wiki/List_of_ponies/Earth_ponies");
    ("crystal", "http://mlp.wikia.com/wiki/List_of_ponies/Crystal_Ponies");
    ("elders", "http://mlp.wikia.com/wiki/List_of_ponies/Elders");
    ("foals", "http://mlp.wikia.com/wiki/List_of_ponies/Foals");
    ("mentioned", "http://mlp.wikia.com/wiki/List_of_ponies/Mentioned_ponies");
    ("comic", "http://mlp.wikia.com/wiki/List_of_comic_ponies");
    ("wonderbolts", "http://mlp.wikia.com/wiki/List_of_Wonderbolts");
    ("alicorns", "http://mlp.wikia.com/wiki/List_of_ponies/Alicorn_ponies");
    ("prose", "http://mlp.wikia.com/wiki/List_of_prose_ponies");
    ("other", "http://mlp.wikia.com/wiki/List_of_non-pony_characters") ].

Fixpoint dict_lookup (d : list (string * string)) (key : string) : option string :=
  match d with
  | [] => None
  | (k, v) :: d' => if bool_decide (k = key) then Some v else dict_lookup d' key
  end.

(** [soup.find('table', {'class': 'listofponies'})]: the first table one
    of whose classes is [listofponies]. *)
Fixpoint split_ws (s : string) : list string :=
  match s with
  | EmptyString => [""]
  | String c s' =>
      let ws := split_ws s' in
      if is_space c then "" :: ws
      else match ws with
           | w :: ws' => String c w :: ws'
           | [] => [String c ""]
           end
  end.

Definition has_class (cls : string) (n : node) : bool :=
  existsb (String.eqb cls) (split_ws (dict_get (attrs n) "class" "")).

Definition find_table (soup : node) : option node :=
  head (List.filter (λ n, is_tag "table" n && has_class "listofponies" n)
                    (descendants soup)).

(** ** The program *)

Section Ponylist.

(** The helpers of [scrapekit], a module of the repository that is not
    among the sources: their results are parameters of the program. *)
Variable fix_camelcase : string → string → string.
Variable strip_label : string → string.
Variable handle_url : string → node.
Variable confirm : string → bool.

(** [URLS.values()]: the addresses of [URLS] in the order in which the
    dictionary is iterated over.  Python 2 takes that order from the hash
    table, so the source text does not fix it: it is a parameter of the
    program, some arrangement of [snd <$> URLS]. *)
Variable URLS_values : list string.

Definition clean_name (name : string) : string :=
  let n := fix_camelcase name ":" in
  let n := replace "[sic]" "" n in
  let n := replace "/" "or" n in
  strip n.

(** [[r for r in rows if 'Unnamed' not in r[0]]] *)
Fixpoint remove_unknown (rows : list loc) (h : heap) : outcome (list loc) :=
  match rows with
  | [] => Returns []
  | r :: rest =>
      match h !! r with
      | None => Raises SystemError
      | Some [] => Raises IndexError
      | Some (name :: _) =>
          kept ← remove_unknown rest h;
          Returns (if contains "Unnamed" name then kept else r :: kept)
      end
  end.

(** [for r in rows: r[0] = f(r[0])] *)
Fixpoint rewrite_names (f : string → string) (rows : list loc) (h : heap)
  : outcome heap :=
  match rows with
  | [] => Returns h
  | r :: rest =>
      match h !! r with
      | None => Raises SystemError
      | Some [] => Raises IndexError
      | Some (name :: fields) => rewrite_names f rest (<[r := f name :: fields]> h)
      end
  end.

(** [[[r[0]] for r in rows]] *)
Fixpoint names_only (rows : list loc) (h : heap) : outcome (list loc * heap) :=
  match rows with
  | [] => Returns ([], h)
  | r :: rest =>
      match h !! r with
      | None => Raises SystemError
      | Some [] => Raises IndexError
      | Some (name :: _) =>
          let '(l, h1) := alloc [name] h in
          '(ls, h2) ← names_only rest h1;
          Returns (l :: ls, h2)
      end
  end.

Definition process_rows (rows : list loc) (args : Args) (h : heap)
  : outcome (list loc * heap) :=
  rows ← (if known args then remove_unknown rows h else Returns rows);
  h ← rewrite_names clean_name rows h;
  h ← (if strip_labels args then rewrite_names strip_label rows h else Returns h);
  if names args then names_only rows h else Returns (rows, h).

Fixpoint get_rows (urls : list string) : outcome (list row) :=
  match urls with
  | [] => Returns []
  | url :: rest =>
      let soup := handle_url url in
      page ← match find_table soup with
             | None => Raises AttributeError
             | Some table => table_to_list table
             end;
      more ← get_rows rest;
      Returns (page ++ more)%list
  end.

(** [main] up to the point where it hands the rows to the image
    downloader, the console and the file writer: the number of rows
    scraped and the rows kept.  [scraping_urls] is a local variable that
    only some paths bind. *)
Definition main (args : Args) : outcome (nat * list (option row)) :=
  scraping_urls ←
    (if bool_decide (type_ args = "all") then
       Returns (if confirm "scrape ALL categories"
                then Some URLS_values else None)
     else
       match dict_lookup URLS (type_ args) with
       | Some url => Returns (Some [url])
       | None => Raises KeyError
       end);
  urls ← match scraping_urls with
         | Some urls => Returns urls
         | None => Raises UnboundLocalError
         end;
  rows ← get_rows urls;
  let original_count := List.length rows in
  let '(rows, h) := alloc_rows rows ∅ in
  '(rows, h) ← process_rows rows args h;
  Returns (original_count, read h rows).

End Ponylist.

(** ** Stand-ins for [scrapekit] *)

Module Scrapekit.

Definition is_lower (c : ascii) : bool :=
  let n := nat_of_ascii c in (97 <=? n)%nat && (n <=? 122)%nat.

Definition is_upper (c : ascii) : bool :=
  let n := nat_of_ascii c in (65 <=? n)%nat && (n <=? 90)%nat.

(** Modelled from the spec: [scrapekit.fix_camelcase] is not among the
    sources.  Section 4.2 has it "correct erroneous camel-case splits
    around a separator character": the separator is put between a
    lower-case letter and an upper-case letter directly after it. *)
Fixpoint fix_camelcase (text separator : string) : string :=
  match text with
  | EmptyString => EmptyString
  | String c rest =>
      match rest with
      | String d _ =>
          if is_lower c && is_upper d
          then String c (separator +:+ fix_camelcase rest separator)
          else String c (fix_camelcase rest separator)
      | EmptyString => String c EmptyString
      end
  end.

Fixpoint after_colon (name : string) : option string :=
  match name with
  | EmptyString => None
  | String c rest => if Ascii.eqb c ":" then Some (lstrip rest) else after_colon rest
  end.

(** Modelled from the spec: [scrapekit.strip_label] is not among the
    sources.  Section 4.2 has it "remove a recognized descriptive-label
    prefix from the name (e.g. a prefix of the form "Label: ")": the text
    up to the first colon and the blanks after it is dropped, and a name
    without a colon is left as it is. *)
Definition strip_label (name : string) : string :=
  default name (after_colon name).

(** Modelled from the spec: [scrapekit.handle_url] is not among the
    sources.  Section 1 calls it an external page fetch: every address
    here serves the same page, which holds [sample_table]. *)
Definition handle_url (url : string) : node :=
  Elem "html" [] [Elem "body" [] [Elem "p" [] [Text url]; sample_table]].

(** Modelled from the spec: [scrapekit.confirm] is not among the
    sources.  Section 6 calls it an interactive confirmation step: the
    two answers a user can give. *)
Definition accept (prompt : string) : bool := true.
Definition decline (prompt : string) : bool := false.

End Scrapekit.

(** ** Sample inputs and the vocabulary of the statements *)

(** Options with every flag off, for the category [ty]. *)
Definition plain (ty : string) : Args :=
  {| type_ := ty; verbose := 0; quiet := false; images := false;
     names := false; format := None; strip_labels := false; known := false |}.

(** [--names] alone, for the category "foals". *)
Definition names_args : Args :=
  {| type_ := "foals"; verbose := 0; quiet := false; images := false;
     names := true; format := None; strip_labels := false; known := false |}.

(** A store whose rows tell the raw name from the cleaned one: the name
    of row [0] has "Unnamed" only once cleaned, that of row [1] has it
    in lower case, that of row [2] has it as given. *)
Definition store_unnamed : gmap nat row :=
  {[ 0 := ["Unna[sic]med Colt"; "Earth"];
     1 := ["unnamed filly"; "Earth"];
     2 := ["Crystal Unnamed Stallion"; "Crystal"] ]}.


(** A table whose only data row has no hyperlink in its last cell. *)
Definition row_no_link : node := tr [td "Applejack"; td "no picture"].
Definition table_no_link : node :=
  Elem "table" [] [tr [th "Name"; th "Image"]; row_no_link].

(** A table whose two data rows have two cells each, one with a
    hyperlink in the last cell and one without. *)
Definition row_linked : node := tr [td "Applejack"; td_link "/a.png"].
Definition row_unlinked : node := tr [td "Rarity"; td "no picture"].
Definition table_ragged : node :=
  Elem "table" [] [tr [th "Name"; th "Image"]; row_linked; row_unlinked].

(** A table whose first row has data cells and no header cells. *)
Definition table_no_header : node :=
  Elem "table" [("class", "listofponies")]
    [tr [td "Applejack"; td_link "/a.png"]].

(** A store with one row object, before and after [process_rows]. *)
Definition store_before : gmap nat row := {[ 0 := ["Big/Small"; "Unicorn"] ]}.
Definition store_after : gmap nat row := {[ 0 := ["BigorSmall"; "Unicorn"] ]}.

(** The rows of [table_no_header] as objects [0] and [1] of a store. *)
Definition store_no_header : gmap nat row :=
  {[ 0 := []; 1 := ["Applejack"; "/a.png"] ]}.

(** A header and two data rows, one of them unnamed. *)
Definition store_ponies : gmap nat row :=
  {[ 0 := ["Name"; "Kind"; "Group"];
     1 := ["Unnamed Mare #3"; "Pegasus"; "None"];
     2 := ["Surprize [sic]"; "Pegasus"; "/s.png"] ]}.

Definition with_known (b : bool) (args : Args) : Args :=
  {| type_ := type_ args; verbose := verbose args; quiet := quiet args;
     images := images args; names := names args; format := format args;
     strip_labels := strip_labels args; known := b |}.

(** A table row with at least one data cell. *)
Definition has_data (r : node) : bool :=
  match findAll "td" r with
  | [] => false
  | _ :: _ => true
  end.

(** The hyperlink element of the last data cell of a table row, if any. *)
Definition link_of (r : node) : option node :=
  last (findAll "td" r) ≫= find "a".

(** The texts of all data cells of a table row but the last. *)
Definition leading_fields (r : node) : row :=
  (λ cell, encode_utf8 (text cell)) <$> removelast (findAll "td" r).

(** A row object with a field 0. *)
Definition nonempty (h : heap) (r : loc) : Prop :=
  ∃ name fields, h !! r = Some (name :: fields).

(** The rows [known] keeps: field 0, as stored in [h], lacks "Unnamed". *)
Definition keeps (h : heap) (r : loc) : bool :=
  match h !! r with
  | Some (name :: _) => negb (contains "Unnamed" name)
  | _ => false
  end.

(** A row with [g] applied to its field 0. *)
Definition on_name (g : string → string) (r : row) : row :=
  match r with
  | [] => []
  | name :: fields => g name :: fields
  end.

(** How often the object [r] occurs in a row sequence. *)
Definition count (r : loc) (rows : list loc) : nat :=
  count_occ Nat.eq_dec rows r.

Section Vocabulary.

Variable fix_camelcase : string → string → string.
Variable strip_label : string → string.

(** The rows that pass the [known] filter, if it is on. *)
Definition survivors (args : Args) (rows : list loc) (h : heap) : list loc :=
  if known args then List.filter (keeps h) rows else rows.

(** Field 0 of a row object after the loops of [process_rows] went over
    it [k] times. *)
Definition final_name (args : Args) (k : nat) (name : string) : string :=
  let cleaned := Nat.iter k (clean_name fix_camelcase) name in
  if strip_labels args then Nat.iter k strip_label cleaned else cleaned.

End Vocabulary.

(** ** The rest of the program: [make_parser], [write_file], the end of [main] *)

(** [make_parser]: the categories and formats [argparse] lets through,
    and the group that keeps [--verbose] and [--quiet] apart. *)
Definition type_choices : list string := ((fst <$> URLS) ++ ["all"])%list.

Definition format_choices : list string := ["txt"; "csv"].

Definition accepted (args : Args) : Prop :=
  type_ args ∈ type_choices
  ∧ (∀ fmt, format args = Some fmt → fmt ∈ format_choices)
  ∧ ¬ (0 < verbose args ∧ quiet args = true).

(** What the program does to the world, in the order it does it. *)
Inductive event : Type :=
| Print (line : string)
| Pprint (r : list string)
| GetImages (rows : list (list string)) (img_dir : string)
| MkImgSheet (img_dir : string)
| WriteCsv (rows : list (list string)) (filename : string)
| WriteTxt (rows : list (list string)) (filename : string)
| Exit.

Definition DATA_DIR : string := "./data/".

(** [s.center(width)]: the odd blank goes to the left when the padding
    and the width are both odd. *)
Definition center (s : string) (width : nat) : string :=
  let marg := width - String.length s in
  match marg with
  | O => s
  | _ =>
      let left := marg / 2 + (if Nat.odd marg && Nat.odd width then 1 else 0) in
      let blanks n := string_of_list_ascii (repeat " "%char n) in
      blanks left +:+ s +:+ blanks (marg - left)
  end.

(** A Python object is true unless it is [None] or empty. *)
Definition format_given (args : Args) : bool :=
  match format args with
  | None | Some EmptyString => false
  | Some _ => true
  end.

Section Output.

(** [scrapekit.DATADIR], a constant of the module that is not among the
    sources. *)
Variable DATADIR : string.

Definition components (args : Args) : list string :=
  (["ponylist"; type_ args]
   ++ (if names args then ["names"] else [])
   ++ (if strip_labels args then ["striplabels"] else [])
   ++ (if known args then ["known"] else []))%list.

(** The name of the file; [None] stands for the [TypeError] of
    ['.' + args.format] when no format was given. *)
Definition filename (args : Args) : option string :=
  fmt ← format args;
  Some (DATADIR +:+ join "_" (components args) +:+ "." +:+ fmt).

Definition write_file (list_of_rows : list (list string)) (args : Args)
  : option (list event) :=
  name ← filename args;
  Some (Print ("Writing to " +:+ name +:+ ".")
        :: (if bool_decide (format args = Some "csv")
            then [WriteCsv list_of_rows name]
            else if bool_decide (format args = Some "txt")
            then [WriteTxt list_of_rows name]
            else [])).

(** [main] from [original_count = len(rows)] on, with the rows
    [process_rows] returned. *)
Definition report (args : Args) (original_count : nat)
    (rows : list (list string)) : option (list event) :=
  if images args then
    let img_dir := DATA_DIR +:+ "images_" +:+ type_ args +:+ "/" in
    Some [GetImages rows img_dir; MkImgSheet img_dir; Exit]
  else
    let shown := if bool_decide (0 < verbose args) then Pprint <$> rows else [] in
    let summary :=
      if quiet args then []
      else
        let sep := string_of_list_ascii (repeat "-"%char 60) in
        [ Print "";
          Print (center sep 80);
          Print (center "SUMMARY" 80);
          Print "";
          Print ("Type selected:      " +:+ type_ args);
          Print ("Total rows scraped: " +:+ pretty original_count);
          Print ("Total rows kept:    " +:+ pretty (List.length rows)) ] in
    written ← (if format_given args then write_file rows args else Some []);
    Some (shown ++ summary ++ written)%list.

End Output.

(** The rows of the page at [url]: the body of the loop of [get_rows]. *)
Definition page_rows (handle_url : string → node) (url : string)
  : outcome (list (list string)) :=
  match find_table (handle_url url) with
  | None => Raises AttributeError
  | Some table => table_to_list table
  end.

(** The part of a file name that tells the options. *)
Definition flag_suffix (args : Args) : string :=
  (if names args then "_names" else "")
  +:+ (if strip_labels args then "_striplabels" else "")
  +:+ (if known args then "_known" else "").

(** The options a file name depends on, and the option sets
    [make_parser] lets through that come with a format. *)
Definition options_of (key : string * bool * bool * bool * string) : Args :=
  let '(ty, n, s, k, fmt) := key in
  {| type_ := ty; verbose := 0; quiet := false; images := false;
     names := n; format := Some fmt; strip_labels := s; known := k |}.

Definition all_keys : list (string * bool * bool * bool * string) :=
  ty ← type_choices; n ← [false; true]; s ← [false; true];
  k ← [false; true]; fmt ← format_choices; [(ty, n, s, k, fmt)].

(** The calls of the row writers of [scrapekit]. *)
Definition is_row_writer (ev : event) : bool :=
  match ev with
  | WriteCsv _ _ | WriteTxt _ _ => true
  | _ => false
  end.

(** The value of a normalised row: [names] keeps field 0 alone. *)
Definition normal_row (post : string → string) (only_name : bool)
    (r : list string) : list string :=
  if only_name then
    match r with
    | [] => []
    | name :: _ => [post name]
    end
  else on_name post r.

(** The [known] test on the value of a row. *)
Definition named (r : list string) : bool :=
  match r with
  | [] => false
  | name :: _ => negb (contains "Unnamed" name)
  end.

(** The rows [known] keeps, by value. *)
Definition kept_rows (args : Args) (rows : list (list string))
  : list (list string) :=
  if known args then List.filter named rows else rows.

(** The addresses [main] binds [scraping_urls] to, when it binds it. *)
Definition scrapes (confirm : string → bool) (URLS_values : list string)
    (args : Args) (urls : list string) : Prop :=
  if bool_decide (type_ args = "all")
  then confirm "scrape ALL categories" = true ∧ urls = URLS_values
  else ∃ url, dict_lookup URLS (type_ args) = Some url ∧ urls = [url].

(** [main] from the rows [get_rows] returned on: they become objects
    of a store of their own, and [process_rows] acts on these. *)
Definition main_rows (fix_camelcase : string → string → string)
    (strip_label : string → string) (args : Args)
    (rows : list (list string)) : outcome (nat * list (option (list string))) :=
  let original_count := List.length rows in
  let '(rows, h) := alloc_rows rows ∅ in
  '(rows, h) ← process_rows fix_camelcase strip_label rows args h;
  Returns (original_count, read h rows).

(** Pages of which the one at "missing" has no table. *)
Definition pages_one_missing (url : string) : node :=
  if bool_decide (url = "missing") then Elem "html" [] []
  else Scrapekit.handle_url url.

(** Pages that hold [table_no_header]. *)
Definition pages_no_header (url : string) : node :=
  Elem "html" [] [Elem "body" [] [table_no_header]].

(** [store_ponies] after [process_rows] with [known] alone. *)
Definition store_ponies_known : gmap nat (list string) :=
  {[ 0 := ["Name"; "Kind"; "Group"];
     1 := ["Unnamed Mare #3"; "Pegasus"; "None"];
     2 := ["Surprize"; "Pegasus"; "/s.png"] ]}.

(** [--names --known --format csv] for the category "foals". *)
Definition csv_args : Args :=
  options_of ("foals", true, false, true, "csv").

(** The rows of [sample_table]. *)
Definition sample_rows : list (list string) :=
  [ ["Name"; "Kind"; "Image"];
    ["Applejack
"; "Earth"; "/wiki/File:Applejack.png"];
    ["Unnamed Mare #3"; "Pegasus"];
    ["Big/Small"; "Unicorn"; "None"] ].

(** * Facts *)

(** ** Sample evaluations *)

Example replace_ex1 : replace "[sic]" "" "Surprize [sic]" = "Surprize ".
Proof. reflexivity. Qed.
Example replace_ex2 : replace "/" "or" "Big/Small" = "BigorSmall".
Proof. reflexivity. Qed.
Example replace_ex3 : replace "" "-" "abc" = "-a-b-c-".
Proof. reflexivity. Qed.
Example replace_ex4 : replace "aa" "b" "aaaaa" = "bba".
Proof. reflexivity. Qed.
Example strip_ex1 : strip "  a b
" = "a b".
Proof. reflexivity. Qed.
Example contains_ex1 : contains "Unnamed" "An Unnamed Pony" = true.
Proof. reflexivity. Qed.

Example table_to_list_sample :
  table_to_list sample_table =
  Returns [ ["Name"; "Kind"; "Image"];
            ["Applejack
"; "Earth"; "/wiki/File:Applejack.png"];
            ["Unnamed Mare #3"; "Pegasus"];
            ["Big/Small"; "Unicorn"; "None"] ].
Proof. reflexivity. Qed.

Example fix_camelcase_ex :
  Scrapekit.fix_camelcase "Bright PonySunshine Smiles" ":" =
  "Bright Pony:Sunshine Smiles".
Proof. reflexivity. Qed.

Example strip_label_ex :
  Scrapekit.strip_label "Bright Pony: Sunshine Smiles" = "Sunshine Smiles".
Proof. reflexivity. Qed.

(** ** Facts about the string operations *)

Section StringFacts.

Implicit Types s t p q old new sub : string.

Lemma sapp_nil_r s : s +:+ "" = s.
Proof. induction s as [|c s IH]; simpl; congruence. Qed.

Lemma sapp_assoc s t u : (s +:+ t) +:+ u = s +:+ t +:+ u.
Proof. induction s as [|c s IH]; simpl; congruence. Qed.

Lemma sapp_length s t :
  String.length (s +:+ t) = String.length s + String.length t.
Proof. induction s as [|c s IH]; simpl; congruence. Qed.

Lemma prefix_true p s : String.prefix p s = true ↔ ∃ t, s = p +:+ t.
Proof.
  revert s. induction p as [|a p IH]; intros s.
  - destruct s; simpl; split; eauto.
  - destruct s as [|c s]; simpl.
    + split; [discriminate | intros [t Ht]; discriminate].
    + destruct (ascii_dec a c) as [->|Hne].
      * rewrite IH. split; intros [t Ht]; exists t; simpl in *; congruence.
      * split; [discriminate | intros [t Ht]; simpl in Ht; congruence].
Qed.

Lemma prefix_app p t : String.prefix p (p +:+ t) = true.
Proof. apply prefix_true; eauto. Qed.

Lemma drop_app p t : drop (String.length p) (p +:+ t) = t.
Proof. induction p as [|a p IH]; simpl; [by destruct t | done]. Qed.

Lemma occurs_here sub q : occurs sub (sub +:+ q).
Proof. by exists "", q. Qed.

Lemma occurs_cons sub c s : occurs sub s → occurs sub (String c s).
Proof. intros (p & q & ->). by exists (String c p), q. Qed.

Lemma occurs_cons_inv sub c s :
  occurs sub (String c s) → String.prefix sub (String c s) = true ∨ occurs sub s.
Proof.
  intros (p & q & Hs). destruct p as [|a p]; simpl in Hs.
  - left. rewrite Hs. apply prefix_app.
  - right. injection Hs as _ ->. by exists p, q.
Qed.

Lemma occurs_app_l sub s t : occurs sub s → occurs sub (s +:+ t).
Proof.
  intros (p & q & ->). exists p, (q +:+ t). by rewrite !sapp_assoc.
Qed.

Lemma occurs_app_r sub s t : occurs sub t → occurs sub (s +:+ t).
Proof.
  intros (p & q & ->). exists (s +:+ p), q. by rewrite !sapp_assoc.
Qed.

(** [contains] decides occurrence: Python's [sub in s]. *)
Lemma contains_occurs sub s : contains sub s = true ↔ occurs sub s.
Proof.
  induction s as [|c s IH].
  - cbn [contains]. rewrite orb_false_r, prefix_true. split.
    + intros [t Ht]. rewrite Ht. apply occurs_here.
    + intros (p & q & Hs). destruct p; [|discriminate].
      destruct sub; [by exists "" | discriminate].
  - cbn [contains]. rewrite orb_true_iff, IH. split.
    + intros [Hp|Ho]; [|by apply occurs_cons].
      apply prefix_true in Hp as [t ->]. apply occurs_here.
    + apply occurs_cons_inv.
Qed.

Lemma contains_false sub s : contains sub s = false ↔ ¬ occurs sub s.
Proof. rewrite <- contains_occurs. by destruct (contains sub s). Qed.

(** *** [replace] *)

Lemma replace_scan_skip old new k s :
  replace_scan old new k s = replace_scan old new 0 (drop k s).
Proof.
  revert k. induction s as [|c s IH]; intros [|k]; try done.
  simpl. apply IH.
Qed.

Lemma replace_nil old new : old ≠ "" → replace old new "" = "".
Proof. by destruct old. Qed.

Lemma replace_match old new t :
  old ≠ "" → replace old new (old +:+ t) = new +:+ replace old new t.
Proof.
  destruct old as [|a old]; [done|]. intros _. unfold replace.
  change (String a old +:+ t) with (String a (old +:+ t)).
  cbn [replace_scan].
  change (String a (old +:+ t)) with (String a old +:+ t).
  rewrite prefix_app, replace_scan_skip. simpl. by rewrite Nat.sub_0_r, drop_app.
Qed.

Lemma replace_nomatch old new c s :
  old ≠ "" → String.prefix old (String c s) = false →
  replace old new (String c s) = String c (replace old new s).
Proof.
  destruct old as [|a old]; [done|]. intros _ Hp. unfold replace.
  cbn [replace_scan]. by rewrite Hp.
Qed.

(** Without an occurrence of [old] nothing is replaced. *)
Lemma replace_no_occurrence old new s :
  old ≠ "" → ¬ occurs old s → replace old new s = s.
Proof.
  intros Hold. induction s as [|c s IH]; intros Hno.
  - by apply replace_nil.
  - rewrite replace_nomatch; [|done|].
    + f_equal. apply IH. intros Ho. apply Hno. by apply occurs_cons.
    + apply not_true_is_false. intros Hp. apply Hno.
      apply prefix_true in Hp as [t ->]. apply occurs_here.
Qed.

Lemma join_cons_char sep c p ps :
  join sep (String c p :: ps) = String c (join sep (p :: ps)).
Proof. by destruct ps. Qed.

Lemma join_cons2 sep p q ps :
  join sep (p :: q :: ps) = p +:+ sep +:+ join sep (q :: ps).
Proof. done. Qed.

Lemma join_head sep p ps : ∃ t, join sep (p :: ps) = p +:+ t.
Proof. destruct ps; [exists ""; by rewrite sapp_nil_r | eauto]. Qed.

(** What [replace] computes: the input is cut at the matches of [old] into
    pieces free of [old], and the pieces are glued back with [new]. *)
Lemma replace_pieces old new s :
  old ≠ "" →
  ∃ p ps, s = join old (p :: ps)
          ∧ Forall (λ x, ¬ occurs old x) (p :: ps)
          ∧ replace old new s = join new (p :: ps).
Proof.
  intros Hold. remember (String.length s) as n eqn:Hn.
  revert s Hn. induction (lt_wf n) as [n _ IH]. intros s ->.
  destruct s as [|c s].
  - exists "", []. split_and!; [done| |by apply replace_nil].
    constructor; [|done]. intros (p & q & Hs).
    destruct p; [|done]. by destruct old.
  - destruct (String.prefix old (String c s)) eqn:Hp.
    + apply prefix_true in Hp as [t Ht].
      destruct (IH (String.length t)) with (s := t) as (p & ps & Hj & Hfree & Hr);
        [|done|].
      { rewrite Ht, sapp_length. destruct old; [done|simpl; lia]. }
      exists "", (p :: ps). rewrite Ht. split_and!.
      * by rewrite join_cons2, <- Hj.
      * constructor; [|done]. intros (p' & q' & Hs).
        destruct p'; [|done]. by destruct old.
      * by rewrite replace_match, join_cons2, Hr.
    + destruct (IH (String.length s)) with (s := s) as (p & ps & Hj & Hfree & Hr);
        [simpl; lia|done|].
      exists (String c p), ps. rewrite join_cons_char, <- Hj. split_and!; [done| |].
      * apply Forall_cons in Hfree as [Hfp Hfps]. constructor; [|done].
        intros [Hpre|Ho]%occurs_cons_inv; [|done].
        apply prefix_true in Hpre as [t Ht].
        destruct (join_head old p ps) as [u Hu].
        assert (String.prefix old (String c s) = true) as Hp'; [|congruence].
        apply prefix_true. exists (t +:+ u).
        rewrite Hj, Hu, <- sapp_assoc, <- Ht. done.
      * rewrite replace_nomatch by done. by rewrite join_cons_char, Hr.
Qed.

(** *** Single characters *)

Lemma occurs_char_app a s t :
  occurs (String a "") (s +:+ t) →
  occurs (String a "") s ∨ occurs (String a "") t.
Proof.
  induction s as [|c s IH]; [by right|]. simpl.
  intros [Hp|Ho]%occurs_cons_inv.
  - left. simpl in Hp. destruct (ascii_dec a c) as [->|]; [|done].
    apply (occurs_here (String c "") s).
  - destruct (IH Ho) as [?|?]; [left; by apply occurs_cons | by right].
Qed.

Lemma occurs_char_join a sep p ps :
  occurs (String a "") (join sep (p :: ps)) →
  occurs (String a "") sep ∨ Exists (occurs (String a "")) (p :: ps).
Proof.
  revert p. induction ps as [|q ps IH]; intros p Ho.
  - right. by constructor.
  - rewrite join_cons2 in Ho.
    apply occurs_char_app in Ho as [?|Ho]; [right; by constructor|].
    apply occurs_char_app in Ho as [?|Ho]; [by left|].
    destruct (IH _ Ho) as [?|?]; [by left | right; by constructor].
Qed.

(** Replacing a character by a text that lacks it leaves no occurrence. *)
Lemma replace_char_gone a new s :
  ¬ occurs (String a "") new →
  ¬ occurs (String a "") (replace (String a "") new s).
Proof.
  intros Hnew Ho.
  destruct (replace_pieces (String a "") new s) as (p & ps & _ & Hfree & Hr); [done|].
  rewrite Hr in Ho. apply occurs_char_join in Ho as [?|Hex]; [done|].
  apply Exists_exists in Hex as (x & Hx & Hox).
  rewrite Forall_forall in Hfree. by apply (Hfree x).
Qed.

(** *** [strip] *)

Lemma lstrip_decomp s :
  ∃ l, s = l +:+ lstrip s ∧ all_space l = true.
Proof.
  induction s as [|c s (l & Hl & Hsp)]; [by exists ""|]. simpl.
  destruct (is_space c) eqn:Hc.
  - exists (String c l). simpl. rewrite Hc, Hsp. by rewrite <- Hl.
  - by exists "".
Qed.

Lemma lstrip_head s : head_space (lstrip s) = false.
Proof.
  induction s as [|c s IH]; [done|]. simpl.
  destruct (is_space c) eqn:Hc; [done|]. simpl. done.
Qed.

Lemma lstrip_id s : head_space s = false → lstrip s = s.
Proof. destruct s as [|c s]; [done|]. simpl. by intros ->. Qed.

Lemma rstrip_decomp s :
  ∃ t, s = rstrip s +:+ t ∧ all_space t = true.
Proof.
  induction s as [|c s (t & Ht & Hsp)]; [by exists ""|]. simpl.
  destruct (rstrip s) as [|d r] eqn:Hr.
  - simpl in Ht. subst t. destruct (is_space c) eqn:Hc.
    + exists (String c s). simpl. by rewrite Hc, Hsp.
    + by exists s.
  - exists t. simpl in *. by rewrite <- Ht.
Qed.

Lemma rstrip_last s : last_space (rstrip s) = false.
Proof.
  induction s as [|c s IH]; [done|]. simpl.
  destruct (rstrip s) as [|d r] eqn:Hr.
  - destruct (is_space c) eqn:Hc; [done|]. simpl. done.
  - done.
Qed.

Lemma rstrip_head s : head_space s = false → head_space (rstrip s) = false.
Proof.
  destruct s as [|c s]; [done|]. simpl. intros Hc.
  destruct (rstrip s); [by rewrite Hc|done].
Qed.

Lemma rstrip_id s : last_space s = false → rstrip s = s.
Proof.
  induction s as [|c s IH]; [done|]. destruct s as [|d s].
  - simpl. by intros ->.
  - intros Hl. change (last_space (String d s) = false) in Hl.
    cbn [rstrip]. cbn [rstrip] in IH. rewrite (IH Hl). done.
Qed.

(** [strip] removes a run of whitespace at each end and nothing else. *)
Lemma strip_decomp s :
  ∃ l t, s = l +:+ strip s +:+ t
         ∧ all_space l = true ∧ all_space t = true
         ∧ head_space (strip s) = false ∧ last_space (strip s) = false.
Proof.
  destruct (lstrip_decomp s) as (l & Hl & Hsl).
  destruct (rstrip_decomp (lstrip s)) as (t & Ht & Hst).
  exists l, t. unfold strip. split_and!; try done.
  - by rewrite <- Ht.
  - apply rstrip_head, lstrip_head.
  - apply rstrip_last.
Qed.

Lemma strip_id s :
  head_space s = false → last_space s = false → strip s = s.
Proof. intros Hh Hl. unfold strip. rewrite (lstrip_id _ Hh). by apply rstrip_id. Qed.

Lemma occurs_strip sub s : occurs sub (strip s) → occurs sub s.
Proof.
  intros Ho. destruct (strip_decomp s) as (l & t & Hs & _).
  rewrite Hs. by apply occurs_app_r, occurs_app_l.
Qed.

End StringFacts.

(** ** [table_to_list] *)

Section TableFacts.

Implicit Types (table r : node) (trs : list node) (acc out : list row).

Lemma List_last_default {A} (x : A) (l : list A) (d d' : A) :
  List.last (x :: l) d = List.last (x :: l) d'.
Proof.
  revert x. induction l as [|y l IH]; intros x; [reflexivity|]. exact (IH y).
Qed.

Lemma last_cons_default {A} (c : A) (cs : list A) :
  last (c :: cs) = Some (List.last (c :: cs) c).
Proof.
  revert c. induction cs as [|d cs IH]; intros c; [reflexivity|].
  change (last (d :: cs) = Some (List.last (d :: cs) c)).
  rewrite (IH d). f_equal. apply List_last_default.
Qed.

Lemma row_of_cells_link r c cs :
  findAll "td" r = c :: cs →
  row_of_cells c cs =
    match link_of r with
    | Some a => (leading_fields r ++ [dict_get (attrs a) "href" "None"])%list
    | None => leading_fields r
    end.
Proof.
  intros Hr. unfold row_of_cells, link_of, leading_fields.
  rewrite Hr, last_cons_default. cbn [mbind option_bind].
  by destruct (find "a" (List.last (c :: cs) c)).
Qed.

Lemma removelast_cons_length {A} (c : A) (cs : list A) :
  List.length (removelast (c :: cs)) = List.length cs.
Proof.
  revert c. induction cs as [|d cs IH]; intros c; [reflexivity|].
  change (removelast (c :: d :: cs)) with (c :: removelast (d :: cs)).
  cbn [List.length]. f_equal. apply IH.
Qed.

Lemma leading_fields_length r c cs :
  findAll "td" r = c :: cs → List.length (leading_fields r) = List.length cs.
Proof.
  intros Hr. unfold leading_fields.
  rewrite Hr, length_fmap. apply removelast_cons_length.
Qed.

(** The loop appends one row per table row with data cells, in order. *)
Lemma scan_rows_spec trs acc :
  ∃ data, scan_rows trs acc = (acc ++ data)%list
          ∧ Forall2 (λ r fields, ∃ c cs, findAll "td" r = c :: cs
                                        ∧ fields = row_of_cells c cs)
                    (List.filter has_data trs) data.
Proof.
  revert acc. induction trs as [|r trs IH]; intros acc.
  - exists []. by rewrite List.app_nil_r.
  - cbn [scan_rows List.filter]. unfold has_data at 1.
    destruct (findAll "td" r) as [|c cs] eqn:Hr.
    + apply IH.
    + destruct (IH (acc ++ [row_of_cells c cs])%list) as (data & -> & Hdata).
      exists (row_of_cells c cs :: data). split.
      * by rewrite <- List.app_assoc.
      * constructor; [by exists c, cs | done].
Qed.

Lemma table_to_list_spec table row0 rest :
  findAll "tr" table = row0 :: rest →
  ∃ data, table_to_list table = Returns (header_of row0 :: data)
          ∧ Forall2 (λ r fields, ∃ c cs, findAll "td" r = c :: cs
                                        ∧ fields = row_of_cells c cs)
                    (List.filter has_data (row0 :: rest)) data.
Proof.
  intros Htr. unfold table_to_list. rewrite Htr.
  destruct (scan_rows_spec (row0 :: rest) [header_of row0]) as (data & -> & Hdata).
  by exists data.
Qed.

Lemma dict_get_lookup d key dflt :
  dict_get d key dflt = default dflt (dict_lookup d key).
Proof.
  induction d as [|[k v] d IH]; [done|]. simpl. by destruct (bool_decide (k = key)).
Qed.

(** The row extracted from the [i]-th table row with data cells. *)
Lemma table_to_list_row table row0 rest i r :
  findAll "tr" table = row0 :: rest →
  List.filter has_data (row0 :: rest) !! i = Some r →
  ∃ out c cs, table_to_list table = Returns out
              ∧ findAll "td" r = c :: cs
              ∧ out !! S i = Some (row_of_cells c cs).
Proof.
  intros Htr Hi. destruct (table_to_list_spec _ _ _ Htr) as (data & Hout & Hdata).
  destruct (Forall2_lookup_l _ _ _ _ _ Hdata Hi) as (fields & Hf & c & cs & Hr & ->).
  by exists (header_of row0 :: data), c, cs.
Qed.



(** C1, as amended: a last data cell without a hyperlink is no error,
    but the row then gets no link field: its fields are the texts of the
    cells before the last.  A hyperlink adds one field, its [href], or
    the text "None" when it has no [href]. *)
Theorem missing_link_adds_no_field table row0 rest i r :
  findAll "tr" table = row0 :: rest →
  List.filter has_data (row0 :: rest) !! i = Some r →
  ∃ out, table_to_list table = Returns out
         ∧ out !! S i =
             Some (leading_fields r ++
                   match link_of r with
                   | None => []
                   | Some a => [default "None" (dict_lookup (attrs a) "href")]
                   end)%list.
Proof.
  intros Htr Hi.
  destruct (table_to_list_row _ _ _ _ _ Htr Hi) as (out & c & cs & Hout & Hr & Hrow).
  exists out. split; [done|]. etrans; [exact Hrow|]. f_equal.
  rewrite (row_of_cells_link r c cs Hr). destruct (link_of r) as [a|].
  - by rewrite dict_get_lookup.
  - by rewrite List.app_nil_r.
Qed.

Lemma missing_link_adds_no_field_witness :
  ∃ out, table_to_list table_no_link = Returns out
         ∧ out !! 1 = Some ["Applejack"].
Proof.
  exact (missing_link_adds_no_field table_no_link _ _ 0 row_no_link eq_refl eq_refl).
Defined.

(** C1 does not hold as stated: the last cell of the data row has no
    hyperlink, and the extracted row has the one field of the first cell,
    with no sentinel after it. *)
Lemma missing_link_no_sentinel :
  link_of row_no_link = None
  ∧ table_to_list table_no_link = Returns [["Name"; "Image"]; ["Applejack"]].
Proof. split; reflexivity. Qed.

(** C3, as amended: an extracted data row has as many fields as the
    table row has data cells when the last cell holds a hyperlink, and one
    fewer when it holds none. *)
Theorem data_row_field_count table row0 rest i r :
  findAll "tr" table = row0 :: rest →
  List.filter has_data (row0 :: rest) !! i = Some r →
  ∃ out fields, table_to_list table = Returns out
                ∧ out !! S i = Some fields
                ∧ List.length fields =
                    match link_of r with
                    | Some _ => List.length (findAll "td" r)
                    | None => List.length (findAll "td" r) - 1
                    end.
Proof.
  intros Htr Hi.
  destruct (table_to_list_row _ _ _ _ _ Htr Hi) as (out & c & cs & Hout & Hr & Hrow).
  exists out, (row_of_cells c cs). split_and!; [done..|].
  rewrite (row_of_cells_link r c cs Hr).
  pose proof (leading_fields_length r c cs Hr) as Hlen. rewrite Hr.
  destruct (link_of r).
  - rewrite length_app, Hlen. simpl. lia.
  - rewrite Hlen. simpl. lia.
Qed.

Lemma data_row_field_count_witness :
  ∃ out fields, table_to_list table_ragged = Returns out
                ∧ out !! 2 = Some fields
                ∧ List.length fields = 1.
Proof.
  exact (data_row_field_count table_ragged _ _ 1 row_unlinked eq_refl eq_refl).
Defined.

(** C3 does not hold as stated: two rows of one table with two data
    cells each yield two fields and one field. *)
Lemma field_count_differs :
  List.length (findAll "td" row_linked) = 2
  ∧ List.length (findAll "td" row_unlinked) = 2
  ∧ table_to_list table_ragged =
      Returns [["Name"; "Image"]; ["Applejack"; "/a.png"]; ["Rarity"]].
Proof. split_and!; reflexivity. Qed.

End TableFacts.

(** ** The store *)

Section StoreFacts.

Implicit Types (h : gmap nat row) (r l : nat) (rows : list nat).

Lemma nonempty_insert h r0 name fields r :
  nonempty h r → nonempty (<[r0 := name :: fields]> h) r.
Proof.
  intros (n & fs & Hr). unfold nonempty.
  destruct (decide (r0 = r)) as [->|Hne].
  - rewrite lookup_insert_eq. eauto.
  - rewrite lookup_insert_ne by done. eauto.
Qed.

Lemma nonempty_on_name h h' g r :
  h' !! r = on_name g <$> h !! r → nonempty h r → nonempty h' r.
Proof. intros Hh (n & fs & Hr). rewrite Hr in Hh. by exists (g n), fs. Qed.

Lemma on_name_id (row0 : row) : on_name (Nat.iter 0 (λ x, x)) row0 = row0.
Proof. by destruct row0. Qed.

(** The loop [for r in rows: r[0] = f(r[0])] applies [f] to field 0 of
    each row object once per occurrence in [rows] and changes nothing
    else. *)
Lemma rewrite_names_spec f rows h :
  Forall (nonempty h) rows →
  ∃ h', rewrite_names f rows h = Returns h'
        ∧ ∀ r, h' !! r = on_name (Nat.iter (count r rows) f) <$> h !! r.
Proof.
  revert h. induction rows as [|r0 rows IH]; intros h Hne.
  - exists h. split; [done|]. intros r. by destruct (h !! r) as [[|]|].
  - apply Forall_cons in Hne as [(n & fs & Hr0) Hne]. cbn [rewrite_names].
    rewrite Hr0.
    destruct (IH (<[r0 := f n :: fs]> h)) as (h' & Hrun & Hh').
    { eapply Forall_impl; [exact Hne|]. intros r. apply nonempty_insert. }
    exists h'. split; [done|]. intros r. rewrite Hh'. unfold count.
    destruct (decide (r0 = r)) as [->|Hneq].
    + rewrite lookup_insert_eq, Hr0, count_occ_cons_eq by done.
      cbn [fmap option_fmap option_map on_name]. by rewrite Nat.iter_succ_r.
    + by rewrite lookup_insert_ne, count_occ_cons_neq.
Qed.

Lemma remove_unknown_spec rows h :
  Forall (nonempty h) rows →
  remove_unknown rows h = Returns (List.filter (keeps h) rows).
Proof.
  induction rows as [|r0 rows IH]; intros Hne; [done|].
  apply Forall_cons in Hne as [(n & fs & Hr0) Hne].
  cbn [remove_unknown List.filter]. unfold keeps at 1.
  rewrite Hr0, (IH Hne). simpl. by destruct (contains "Unnamed" n).
Qed.

Lemma alloc_fresh (x : row) h l h1 :
  alloc x h = (l, h1) → h !! l = None ∧ h1 = <[l := x]> h.
Proof.
  unfold alloc. intros [= <- <-]. split; [|done].
  apply not_elem_of_dom, is_fresh.
Qed.

(** [[[r[0]] for r in rows]] builds one new one-field row per element of
    [rows] and leaves the existing objects alone. *)
Lemma names_only_spec rows h :
  Forall (nonempty h) rows →
  ∃ out h', names_only rows h = Returns (out, h')
            ∧ (∀ r, is_Some (h !! r) → h' !! r = h !! r)
            ∧ Forall2 (λ r l, ∃ name fields, h' !! r = Some (name :: fields)
                                            ∧ h !! l = None
                                            ∧ h' !! l = Some [name])
                      rows out.
Proof.
  revert h. induction rows as [|r0 rows IH]; intros h Hne.
  - exists [], h. split_and!; [done|done|constructor].
  - apply Forall_cons in Hne as [(n & fs & Hr0) Hne]. cbn [names_only].
    rewrite Hr0. destruct (alloc [n] h) as [l h1] eqn:Hal.
    apply alloc_fresh in Hal as [Hl ->].
    assert (∀ r, is_Some (h !! r) → <[l := [n]]> h !! r = h !! r) as Hold.
    { intros r [x Hx]. rewrite lookup_insert_ne; [done|]. congruence. }
    destruct (IH (<[l := [n]]> h)) as (out & h' & Hrun & Hkeep & Hout).
    { eapply Forall_impl; [exact Hne|]. intros r (n' & fs' & Hr).
      exists n', fs'. rewrite Hold; [done|by eexists]. }
    exists (l :: out), h'. rewrite Hrun. split_and!; [done| |].
    + intros r Hr. rewrite Hkeep; [by apply Hold|]. by rewrite Hold.
    + constructor.
      * exists n, fs. split_and!; [|done|].
        -- rewrite Hkeep; rewrite Hold; by rewrite ?Hr0.
        -- rewrite Hkeep; by rewrite lookup_insert_eq.
      * eapply Forall2_impl; [exact Hout|].
        intros r l' (n' & fs' & Hr & Hl' & Hl''). exists n', fs'.
        split_and!; [done| |done].
        destruct (decide (l = l')) as [->|Hll].
        -- by rewrite lookup_insert_eq in Hl'.
        -- by rewrite lookup_insert_ne in Hl'.
Qed.

End StoreFacts.

(** ** [remove_unknown] and [process_rows] *)

Section ProcessFacts.

Variable fix_camelcase : string → string → string.
Variable strip_label : string → string.

Implicit Types (h : gmap nat row) (r l : nat) (rows : list nat) (args : Args).

Lemma Forall2_with_Forall {A B} (P : A → B → Prop) (Q : A → Prop)
    (xs : list A) (ys : list B) :
  Forall Q xs → Forall2 P xs ys → Forall2 (λ x y, Q x ∧ P x y) xs ys.
Proof.
  intros HQ HP. induction HP as [|x y xs ys Hxy HP IH]; [constructor|].
  apply Forall_cons in HQ as [Hx HQ]. constructor; auto.
Qed.

Lemma filter_Forall {A} (P : A → Prop) (f : A → bool) (xs : list A) :
  Forall P xs → Forall P (List.filter f xs).
Proof.
  induction 1 as [|x xs Hx _ IH]; [constructor|]. simpl.
  destruct (f x); [by constructor | done].
Qed.

Lemma survivors_nonempty args rows h :
  Forall (nonempty h) rows → Forall (nonempty h) (survivors args rows h).
Proof. unfold survivors. destruct (known args); [apply filter_Forall | done]. Qed.

Lemma final_name_0 args name :
  final_name fix_camelcase strip_label args 0 name = name.
Proof. unfold final_name. by destruct (strip_labels args). Qed.

(** Every row is allocated: it is empty or has a field 0. *)
Lemma nonempty_or_empty rows h :
  Forall (λ r, is_Some (h !! r)) rows →
  Forall (nonempty h) rows ∨ Exists (λ r, h !! r = Some []) rows.
Proof.
  induction 1 as [|r rows [x Hr] _ [IH|IH]].
  - left. constructor.
  - destruct x as [|n fs].
    + right. by constructor.
    + left. constructor; [by exists n, fs | done].
  - right. by constructor 2.
Qed.

Lemma nonempty_not_empty rows h :
  Forall (nonempty h) rows → ¬ Exists (λ r, h !! r = Some []) rows.
Proof.
  rewrite Forall_forall, Exists_exists. intros Hne (r & Hin & Hr).
  destruct (Hne r Hin) as (n & fs & Hr'). congruence.
Qed.

Lemma rewrite_names_empty f rows h :
  Forall (λ r, is_Some (h !! r)) rows →
  Exists (λ r, h !! r = Some []) rows →
  rewrite_names f rows h = Raises IndexError.
Proof.
  revert h. induction rows as [|r0 rows IH]; intros h Hall Hex.
  - by apply Exists_nil in Hex.
  - apply Forall_cons in Hall as [[x Hr0] Hall]. cbn [rewrite_names]. rewrite Hr0.
    destruct x as [|n fs]; [done|].
    apply Exists_cons in Hex as [Hex|Hex]; [congruence|].
    apply IH.
    + eapply Forall_impl; [exact Hall|]. intros r [y Hy].
      destruct (decide (r0 = r)) as [->|?];
        [rewrite lookup_insert_eq | rewrite lookup_insert_ne by done]; by eexists.
    + eapply Exists_impl; [exact Hex|]. intros r Hr. simpl in Hr.
      rewrite lookup_insert_ne; [done|]. congruence.
Qed.

Lemma remove_unknown_empty rows h :
  Forall (λ r, is_Some (h !! r)) rows →
  Exists (λ r, h !! r = Some []) rows →
  remove_unknown rows h = Raises IndexError.
Proof.
  induction rows as [|r0 rows IH]; intros Hall Hex.
  - by apply Exists_nil in Hex.
  - apply Forall_cons in Hall as [[x Hr0] Hall]. cbn [remove_unknown]. rewrite Hr0.
    destruct x as [|n fs]; [done|].
    apply Exists_cons in Hex as [Hex|Hex]; [congruence|].
    by rewrite (IH Hall Hex).
Qed.

(** The two loops of [process_rows] over the rows that are kept. *)
Lemma process_rows_run rows args h :
  Forall (nonempty h) rows →
  ∃ h2, (∀ r, h2 !! r =
              on_name (final_name fix_camelcase strip_label args
                         (count r (survivors args rows h)))
                <$> h !! r)
        ∧ process_rows fix_camelcase strip_label rows args h =
            if names args then names_only (survivors args rows h) h2
            else Returns (survivors args rows h, h2).
Proof.
  intros Hne. pose proof (survivors_nonempty args _ _ Hne) as Hsurv.
  destruct (rewrite_names_spec (clean_name fix_camelcase) _ _ Hsurv)
    as (h1 & Hrun1 & Hh1).
  assert (Forall (nonempty h1) (survivors args rows h)) as Hsurv1.
  { eapply Forall_impl; [exact Hsurv|]. intros r. eapply nonempty_on_name, Hh1. }
  destruct (rewrite_names_spec strip_label _ _ Hsurv1) as (h2 & Hrun2 & Hh2).
  assert (remove_or_keep :
    (if known args then remove_unknown rows h else Returns rows)
    = Returns (survivors args rows h)).
  { unfold survivors. destruct (known args); [by apply remove_unknown_spec | done]. }
  unfold process_rows. rewrite remove_or_keep. cbn [mbind outcome_bind].
  rewrite Hrun1. cbn [mbind outcome_bind].
  destruct (strip_labels args) eqn:Hstrip.
  - exists h2. rewrite Hrun2. split; [|done].
    intros r. rewrite Hh2, Hh1. unfold final_name. rewrite Hstrip.
    by destruct (h !! r) as [[|]|].
  - exists h1. split; [|done].
    intros r. rewrite Hh1. unfold final_name. by rewrite Hstrip.
Qed.

Lemma keeps_spec h r :
  keeps h r = true ↔
  ∃ name fields, h !! r = Some (name :: fields) ∧ ¬ occurs "Unnamed" name.
Proof.
  unfold keeps. destruct (h !! r) as [[|n fs]|] eqn:Hr.
  - split; [done|]. by intros (? & ? & ? & _).
  - rewrite negb_true_iff, contains_false. split.
    + intros Hno. by exists n, fs.
    + by intros (? & ? & [= <- <-] & Hno).
  - split; [done|]. by intros (? & ? & ? & _).
Qed.

(** C5: with [known] set, [process_rows] is [process_rows] without
    [known] on the rows whose field 0, as given, lacks the text "Unnamed":
    the rows are filtered on their names before any name is cleaned, and
    exactly those rows come out. *)
Theorem known_filters_given_names rows args h :
  known args = true →
  Forall (nonempty h) rows →
  process_rows fix_camelcase strip_label rows args h
    = process_rows fix_camelcase strip_label
        (List.filter (keeps h) rows) (with_known false args) h
  ∧ (∃ out h',
       process_rows fix_camelcase strip_label rows args h = Returns (out, h')
       ∧ List.length out = List.length (List.filter (keeps h) rows)
       ∧ (names args = false → out = List.filter (keeps h) rows))
  ∧ (∀ r, keeps h r = true ↔
          ∃ name fields, h !! r = Some (name :: fields)
                         ∧ ¬ occurs "Unnamed" name).
Proof.
  intros Hknown Hne. split_and!; [| |apply keeps_spec].
  - unfold process_rows. rewrite Hknown. cbn [known with_known].
    by rewrite (remove_unknown_spec _ _ Hne).
  - destruct (process_rows_run rows args h Hne) as (h2 & Hh2 & Hrun).
    rewrite Hrun. unfold survivors in *. rewrite Hknown in *.
    destruct (names args).
    + assert (Forall (nonempty h2) (List.filter (keeps h) rows)) as Hne2.
      { apply filter_Forall. eapply Forall_impl; [exact Hne|].
        intros r. eapply nonempty_on_name, Hh2. }
      destruct (names_only_spec _ _ Hne2) as (out & h' & Hnames & _ & Hout).
      exists out, h'. split_and!; [done| |done].
      symmetry. eapply Forall2_length, Hout.
    + by exists (List.filter (keeps h) rows), h2.
Qed.

(** C6, as amended: [process_rows] acts on the store.  For every option
    set, field 0 of a row it keeps is rewritten in place, every other
    field of every row it was given is as before, and a row that is not
    kept is as before.  Without [names] the rows returned are the kept
    ones, the very objects given, and the store holds no row it did not
    hold; with [names] the rows returned are new objects. *)
Theorem process_rows_rewrites_names_only rows args h :
  Forall (nonempty h) rows →
  ∃ out h',
    process_rows fix_camelcase strip_label rows args h = Returns (out, h')
    ∧ (∀ r, is_Some (h !! r) →
            h' !! r =
            on_name (final_name fix_camelcase strip_label args
                       (count r (survivors args rows h)))
              <$> h !! r)
    ∧ (∀ r, is_Some (h !! r) → tail <$> h' !! r = tail <$> h !! r)
    ∧ (∀ r, is_Some (h !! r) → r ∉ survivors args rows h → h' !! r = h !! r)
    ∧ (names args = false →
       out = survivors args rows h ∧ ∀ r, h !! r = None → h' !! r = None)
    ∧ (names args = true → Forall (λ l, h !! l = None) out).
Proof.
  intros Hne.
  destruct (process_rows_run rows args h Hne) as (h2 & Hh2 & Hrun).
  assert (∀ r, tail <$> h2 !! r = tail <$> h !! r) as Htail.
  { intros r. rewrite Hh2. by destruct (h !! r) as [[|]|]. }
  assert (∀ r, r ∉ survivors args rows h → h2 !! r = h !! r) as Hrest.
  { intros r Hr. rewrite Hh2. unfold count.
    rewrite (proj1 (count_occ_not_In Nat.eq_dec _ r)).
    - destruct (h !! r) as [[|n fs]|]; [done| |done].
      cbn [fmap option_fmap option_map on_name]. by rewrite final_name_0.
    - by rewrite <- list_elem_of_In. }
  assert (∀ r, is_Some (h !! r) → is_Some (h2 !! r)) as Hsome.
  { intros r [x Hx]. rewrite Hh2, Hx. by eexists. }
  destruct (names args) eqn:Hnames.
  - assert (Forall (nonempty h2) (survivors args rows h)) as Hsurv2.
    { eapply Forall_impl; [exact (survivors_nonempty args _ _ Hne)|].
      intros r. eapply nonempty_on_name, Hh2. }
    destruct (names_only_spec _ _ Hsurv2) as (out & h' & Hrun' & Hkeep & Hout).
    exists out, h'. split_and!; [by rewrite Hrun| | | |done|].
    + intros r Hr. by rewrite (Hkeep r (Hsome r Hr)).
    + intros r Hr. by rewrite (Hkeep r (Hsome r Hr)).
    + intros r Hr Hnotin. rewrite (Hkeep r (Hsome r Hr)). by apply Hrest.
    + intros _. eapply Forall2_Forall_r; [exact Hout|].
      apply Forall_forall. intros r _ l (_ & _ & _ & Hl & _).
      rewrite Hh2 in Hl. by destruct (h !! l).
  - exists (survivors args rows h), h2. split_and!; [done|auto..| |done].
    intros _. split; [done|]. intros r Hr. by rewrite Hh2, Hr.
Qed.

(** C8: with [names] set, [process_rows] returns one new row per row it
    keeps, whether header or data, and the new row has one field: field 0
    of the row it comes from, cleaned. *)
Theorem names_rows_have_field_0_only rows args h :
  names args = true →
  Forall (nonempty h) rows →
  ∃ out h',
    process_rows fix_camelcase strip_label rows args h = Returns (out, h')
    ∧ Forall2 (λ r l, ∃ name fields,
                 h !! r = Some (name :: fields)
                 ∧ h !! l = None
                 ∧ h' !! l =
                     Some [final_name fix_camelcase strip_label args
                             (count r (survivors args rows h)) name])
              (survivors args rows h) out.
Proof.
  intros Hnames Hne.
  destruct (process_rows_run rows args h Hne) as (h2 & Hh2 & Hrun).
  rewrite Hnames in Hrun.
  pose proof (survivors_nonempty args _ _ Hne) as Hsurv.
  assert (Forall (nonempty h2) (survivors args rows h)) as Hsurv2.
  { eapply Forall_impl; [exact Hsurv|]. intros r. eapply nonempty_on_name, Hh2. }
  destruct (names_only_spec _ _ Hsurv2) as (out & h' & Hrun' & Hkeep & Hout).
  exists out, h'. split; [by rewrite Hrun|].
  eapply Forall2_impl; [exact (Forall2_with_Forall _ _ _ _ Hsurv Hout)|].
  intros r l [(n & fs & Hr) (n2 & fs2 & Hr2 & Hnew & Hl)].
  exists n, fs. split_and!; [done| |].
  - rewrite Hh2 in Hnew. by destruct (h !! l).
  - rewrite Hl. do 2 f_equal. rewrite Hkeep, Hh2, Hr in Hr2.
    + by injection Hr2 as <- _.
    + rewrite Hh2, Hr. by eexists.
Qed.

(** C10: [process_rows] (whatever the options) and [remove_unknown]
    return a result when every row has a field 0, and raise [IndexError]
    when some row is empty; a sequence of rows of the store is in one of
    the two cases. *)
Theorem empty_row_raises_IndexError rows args h :
  Forall (λ r, is_Some (h !! r)) rows →
  (Forall (nonempty h) rows ∨ Exists (λ r, h !! r = Some []) rows)
  ∧ (Forall (nonempty h) rows →
       (∃ res, process_rows fix_camelcase strip_label rows args h = Returns res)
       ∧ ∃ kept, remove_unknown rows h = Returns kept)
  ∧ (Exists (λ r, h !! r = Some []) rows →
       process_rows fix_camelcase strip_label rows args h = Raises IndexError
       ∧ remove_unknown rows h = Raises IndexError).
Proof.
  intros Hall. split_and!; [by apply nonempty_or_empty| |].
  - intros Hne. split; [|rewrite remove_unknown_spec; eauto].
    destruct (process_rows_run rows args h Hne) as (h2 & Hh2 & Hrun).
    rewrite Hrun. destruct (names args); [|eauto].
    destruct (names_only_spec (survivors args rows h) h2)
      as (out & h' & Hnames & _); [|eauto].
    eapply Forall_impl; [exact (survivors_nonempty args _ _ Hne)|].
    intros r. eapply nonempty_on_name, Hh2.
  - intros Hex. split; [|by apply remove_unknown_empty].
    unfold process_rows. destruct (known args).
    + by rewrite remove_unknown_empty.
    + cbn [mbind outcome_bind]. by rewrite rewrite_names_empty.
Qed.

End ProcessFacts.

(** ** [clean_name] *)

Section CleanNameFacts.

Variable fix_camelcase : string → string → string.

Lemma no_slash_in_or : ¬ occurs "/" "or".
Proof. by apply contains_false. Qed.

Lemma clean_name_no_slash name : ¬ occurs "/" (clean_name fix_camelcase name).
Proof.
  unfold clean_name. intros Ho%occurs_strip.
  by apply (replace_char_gone "/"%char "or") in Ho; [|apply no_slash_in_or].
Qed.

(** A name that needs no cleaning is returned as it is. *)
Lemma clean_name_id n :
  fix_camelcase n ":" = n →
  ¬ occurs "[sic]" n → ¬ occurs "/" n →
  head_space n = false → last_space n = false →
  clean_name fix_camelcase n = n.
Proof.
  intros Hfix Hsic Hslash Hhead Hlast. unfold clean_name.
  rewrite Hfix, (replace_no_occurrence "[sic]" "" n) by done.
  rewrite (replace_no_occurrence "/" "or" n) by done. by apply strip_id.
Qed.

(** C7: [clean_name] cuts the name (after the camel-case fix) at the
    occurrences of "[sic]" and glues the pieces together, cuts the result
    at every '/' and glues the pieces with "or" and nothing else between
    them, and takes the whitespace off both ends of what this gives; so
    "Big/Small" becomes "BigorSmall". *)
Theorem clean_name_effect name :
  (∃ p ps q qs l t,
      fix_camelcase name ":" = join "[sic]" (p :: ps)
      ∧ Forall (λ x, ¬ occurs "[sic]" x) (p :: ps)
      ∧ join "" (p :: ps) = join "/" (q :: qs)
      ∧ Forall (λ x, ¬ occurs "/" x) (q :: qs)
      ∧ join "or" (q :: qs) = l +:+ clean_name fix_camelcase name +:+ t
      ∧ all_space l = true ∧ all_space t = true
      ∧ head_space (clean_name fix_camelcase name) = false
      ∧ last_space (clean_name fix_camelcase name) = false)
  ∧ ¬ occurs "/" (clean_name fix_camelcase name)
  ∧ (name = "Big/Small" → fix_camelcase name ":" = name →
     clean_name fix_camelcase name = "BigorSmall").
Proof.
  split_and!; [|apply clean_name_no_slash|].
  - destruct (replace_pieces "[sic]" "" (fix_camelcase name ":"))
      as (p & ps & Hj1 & Hfree1 & Hr1); [done|].
    destruct (replace_pieces "/" "or" (join "" (p :: ps)))
      as (q & qs & Hj2 & Hfree2 & Hr2); [done|].
    destruct (strip_decomp (join "or" (q :: qs)))
      as (l & t & Hs & Hl & Ht & Hhead & Hlast).
    assert (clean_name fix_camelcase name = strip (join "or" (q :: qs))) as Hclean.
    { unfold clean_name. by rewrite Hr1, Hr2. }
    exists p, ps, q, qs, l, t. rewrite Hclean. by split_and!.
  - intros -> Hfix. unfold clean_name. by rewrite Hfix.
Qed.

(** C9, as amended: [clean_name] returns a name unchanged when the
    camel-case fix leaves it alone and it has no "[sic]", no '/' and no
    whitespace at either end; cleaning a cleaned name changes nothing when
    the camel-case fix leaves the cleaned name alone and no "[sic]" is
    left in it. *)
Theorem clean_name_on_clean_names :
  (∀ n, fix_camelcase n ":" = n →
        ¬ occurs "[sic]" n → ¬ occurs "/" n →
        head_space n = false → last_space n = false →
        clean_name fix_camelcase n = n)
  ∧ (∀ m, fix_camelcase (clean_name fix_camelcase m) ":"
            = clean_name fix_camelcase m →
          ¬ occurs "[sic]" (clean_name fix_camelcase m) →
          clean_name fix_camelcase (clean_name fix_camelcase m)
            = clean_name fix_camelcase m).
Proof.
  split; [apply clean_name_id|]. intros m Hfix Hsic.
  apply clean_name_id; [done|done|apply clean_name_no_slash|..];
    unfold clean_name, strip.
  - apply rstrip_head, lstrip_head.
  - apply rstrip_last.
Qed.

(** Whatever the camel-case fix does elsewhere: if it leaves "[s[sic]ic]"
    and "[sic]" alone, cleaning twice differs from cleaning once. *)
Lemma clean_name_twice_differs :
  fix_camelcase "[s[sic]ic]" ":" = "[s[sic]ic]" →
  fix_camelcase "[sic]" ":" = "[sic]" →
  clean_name fix_camelcase "[s[sic]ic]" = "[sic]"
  ∧ clean_name fix_camelcase (clean_name fix_camelcase "[s[sic]ic]") = "".
Proof.
  intros H1 H2.
  assert (clean_name fix_camelcase "[s[sic]ic]" = "[sic]") as Hc.
  { unfold clean_name. by rewrite H1. }
  split; [done|]. rewrite Hc. unfold clean_name. by rewrite H2.
Qed.

End CleanNameFacts.

(** ** [main] *)

Section MainFacts.

Variable fix_camelcase : string → string → string.
Variable strip_label : string → string.
Variable handle_url : string → node.
Variable confirm : string → bool.
Variable URLS_values : list string.

(** C2: when the category is "all" and the confirmation is declined,
    [main] scrapes nothing and does not end normally: the local variable
    [scraping_urls] is unbound where it is read, which raises
    [UnboundLocalError]. *)
Theorem declined_all_raises args :
  type_ args = "all" →
  confirm "scrape ALL categories" = false →
  main fix_camelcase strip_label handle_url confirm URLS_values args
    = Raises UnboundLocalError.
Proof.
  intros Hall Hno. unfold main.
  by rewrite (bool_decide_eq_true_2 _ Hall), Hno.
Qed.

End MainFacts.

(** ** The statements at sample inputs *)

Example no_header_rows :
  table_to_list table_no_header = Returns [[]; ["Applejack"; "/a.png"]]
  ∧ alloc_rows [[]; ["Applejack"; "/a.png"]] ∅ = ([0; 1], store_no_header).
Proof. split; vm_compute; reflexivity. Qed.

(** The [known] filter reads the names as given, before they are
    cleaned, and compares case by case. *)
Example known_reads_raw_names :
  process_rows Scrapekit.fix_camelcase Scrapekit.strip_label
               [0; 1; 2] (with_known true (plain "foals")) store_unnamed
  = Returns ([0; 1],
             {[ 0 := ["Unnamed Colt"; "Earth"];
                1 := ["unnamed filly"; "Earth"];
                2 := ["Crystal Unnamed Stallion"; "Crystal"] ]}).
Proof. vm_compute. reflexivity. Qed.

(** The run of [main] for one category over the sample page. *)
Example main_foals :
  main Scrapekit.fix_camelcase Scrapekit.strip_label Scrapekit.handle_url
       Scrapekit.decline (snd <$> URLS) (with_known true (plain "foals"))
  = Returns (4, [Some ["Name"; "Kind"; "Image"];
                 Some ["Applejack"; "Earth"; "/wiki/File:Applejack.png"];
                 Some ["BigorSmall"; "Unicorn"; "None"]]).
Proof. vm_compute. reflexivity. Qed.

Lemma declined_all_raises_witness :
  main Scrapekit.fix_camelcase Scrapekit.strip_label Scrapekit.handle_url
       Scrapekit.decline (snd <$> URLS) (plain "all")
  = Raises UnboundLocalError.
Proof.
  apply declined_all_raises; reflexivity.
Defined.

Lemma known_filters_given_names_witness :
  ∃ out h',
    process_rows Scrapekit.fix_camelcase Scrapekit.strip_label
                 [0; 1; 2] (with_known true (plain "foals")) store_ponies
    = Returns (out, h')
    ∧ List.length out = 2
    ∧ (false = false → out = [0; 2]).
Proof.
  destruct (known_filters_given_names Scrapekit.fix_camelcase Scrapekit.strip_label
              [0; 1; 2] (with_known true (plain "foals")) store_ponies)
    as (_ & H & _); [reflexivity | repeat constructor; by eexists _, _ | exact H].
Defined.

Lemma process_rows_rewrites_names_only_witness :
  ∃ out h',
    process_rows Scrapekit.fix_camelcase Scrapekit.strip_label
                 [0] names_args store_before
    = Returns (out, h')
    ∧ h' !! 0 = Some ["BigorSmall"; "Unicorn"]
    ∧ Forall (λ l, store_before !! l = None) out.
Proof.
  destruct (process_rows_rewrites_names_only
              Scrapekit.fix_camelcase Scrapekit.strip_label
              [0] names_args store_before)
    as (out & h' & Hrun & Hname & _ & _ & _ & Hnew);
    [repeat constructor; by eexists _, _ |].
  exists out, h'. split_and!; [exact Hrun | | exact (Hnew eq_refl)].
  apply (Hname 0). by eexists.
Defined.

(** C6 does not hold as stated: [process_rows] acts on its argument; the
    row object it was given reads differently after the call. *)
Lemma process_rows_changes_input :
  read store_before [0] = [Some ["Big/Small"; "Unicorn"]]
  ∧ process_rows Scrapekit.fix_camelcase Scrapekit.strip_label
                 [0] (plain "foals") store_before
    = Returns ([0], store_after)
  ∧ read store_after [0] = [Some ["BigorSmall"; "Unicorn"]].
Proof. split_and!; vm_compute; reflexivity. Qed.

(** The same for any helpers: the name "Big/Small" cannot stay. *)
Lemma process_rows_changes_store
    (fix_camelcase : string → string → string) (strip_label : string → string) :
  ∃ h', process_rows fix_camelcase strip_label [0] (plain "foals") store_before
        = Returns ([0], h')
        ∧ h' !! 0 ≠ store_before !! 0.
Proof.
  destruct (process_rows_run fix_camelcase strip_label [0] (plain "foals") store_before)
    as (h2 & Hh2 & Hrun); [repeat constructor; by eexists _, _|].
  exists h2. split; [exact Hrun|]. rewrite Hh2. intros Heq.
  apply (clean_name_no_slash fix_camelcase "Big/Small").
  assert (clean_name fix_camelcase "Big/Small" = "Big/Small") as ->.
  { vm_compute in Heq. by injection Heq. }
  by exists "Big", "Small".
Qed.

Lemma names_rows_have_field_0_only_witness :
  ∃ out h',
    process_rows Scrapekit.fix_camelcase Scrapekit.strip_label
                 [0; 1; 2] names_args store_ponies
    = Returns (out, h')
    ∧ ∃ l ls, out = l :: ls ∧ h' !! l = Some ["Name"].
Proof.
  destruct (names_rows_have_field_0_only
              Scrapekit.fix_camelcase Scrapekit.strip_label
              [0; 1; 2] names_args store_ponies)
    as (out & h' & Hrun & Hout); [reflexivity | repeat constructor; by eexists _, _ |].
  exists out, h'. split; [exact Hrun|].
  destruct out as [|l ls]; [by apply Forall2_nil_inv_r in Hout|].
  apply Forall2_cons_1 in Hout as [(name & fields & Hname & _ & Hl) _].
  exists l, ls. split; [reflexivity|].
  injection Hname as <- _. exact Hl.
Defined.

Lemma empty_row_raises_IndexError_witness :
  process_rows Scrapekit.fix_camelcase Scrapekit.strip_label
               [0; 1] (plain "foals") store_no_header
  = Raises IndexError
  ∧ remove_unknown [0; 1] store_no_header = Raises IndexError.
Proof.
  apply (empty_row_raises_IndexError Scrapekit.fix_camelcase Scrapekit.strip_label
           [0; 1] (plain "foals") store_no_header).
  - repeat constructor; by eexists.
  - constructor. reflexivity.
Defined.

Lemma clean_name_effect_witness :
  clean_name Scrapekit.fix_camelcase "Big/Small" = "BigorSmall".
Proof.
  apply (clean_name_effect Scrapekit.fix_camelcase "Big/Small"); reflexivity.
Defined.

Lemma clean_name_on_clean_names_witness :
  clean_name Scrapekit.fix_camelcase "Sunshine Smiles" = "Sunshine Smiles".
Proof.
  apply (clean_name_on_clean_names Scrapekit.fix_camelcase).
  - reflexivity.
  - by apply contains_false.
  - by apply contains_false.
  - reflexivity.
  - reflexivity.
Defined.

(** C9 does not hold as stated: cleaning "[s[sic]ic]" gives "[sic]", and
    cleaning that gives the empty name. *)
Lemma clean_name_not_idempotent :
  clean_name Scrapekit.fix_camelcase "[s[sic]ic]" = "[sic]"
  ∧ clean_name Scrapekit.fix_camelcase
      (clean_name Scrapekit.fix_camelcase "[s[sic]ic]") = "".
Proof. split; reflexivity. Qed.

(** * Further facts *)

(** ** [table_to_list]: the header *)

Section MoreTableFacts.

Implicit Types (table : node) (out : list (list string)).

Lemma header_of_cells row0 :
  Forall2 (λ cell field,
             head_space field = false ∧ last_space field = false
             ∧ ∃ l t, text cell = l +:+ field +:+ t
                      ∧ all_space l = true ∧ all_space t = true)
          (findAll "th" row0) (header_of row0).
Proof.
  unfold header_of. induction (findAll "th" row0) as [|cell cells IH];
    [constructor|].
  rewrite fmap_cons. constructor; [|exact IH]. unfold encode_utf8.
  destruct (strip_decomp (text cell)) as (l & t & Hs & Hl & Ht & Hh & Hlast).
  split_and!; [done..|]. by exists l, t.
Qed.

(** X2: the first row of the result is the header: one field per header
    cell of the first table row, namely the cell's text without the
    whitespace at its two ends. *)
Theorem header_fields_are_stripped table out :
  table_to_list table = Returns out →
  ∃ row0 header data,
    head (findAll "tr" table) = Some row0
    ∧ out = header :: data
    ∧ Forall2 (λ cell field,
                 head_space field = false ∧ last_space field = false
                 ∧ ∃ l t, text cell = l +:+ field +:+ t
                          ∧ all_space l = true ∧ all_space t = true)
              (findAll "th" row0) header.
Proof.
  intros Hout. destruct (findAll "tr" table) as [|row0 rest] eqn:Htr.
  - unfold table_to_list in Hout. by rewrite Htr in Hout.
  - destruct (table_to_list_spec _ _ _ Htr) as (data & Hrun & _).
    rewrite Hrun in Hout. injection Hout as <-.
    exists row0, (header_of row0), data. split_and!; [done..|].
    apply header_of_cells.
Qed.

Lemma header_fields_are_stripped_witness :
  ∃ row0 header data,
    head (findAll "tr" sample_table) = Some row0
    ∧ [ ["Name"; "Kind"; "Image"];
        ["Applejack
"; "Earth"; "/wiki/File:Applejack.png"];
        ["Unnamed Mare #3"; "Pegasus"];
        ["Big/Small"; "Unicorn"; "None"] ] = header :: data
    ∧ Forall2 (λ cell field,
                 head_space field = false ∧ last_space field = false
                 ∧ ∃ l t, text cell = l +:+ field +:+ t
                          ∧ all_space l = true ∧ all_space t = true)
              (findAll "th" row0) header.
Proof.
  apply (header_fields_are_stripped sample_table). reflexivity.
Defined.

End MoreTableFacts.

(** ** [get_rows] *)

Section GetRowsFacts.

Variable handle_url : string → node.

Implicit Types (urls us vs : list string) (rows : list (list string)).

Lemma get_rows_cons url urls :
  get_rows handle_url (url :: urls) =
  page ← page_rows handle_url url;
  more ← get_rows handle_url urls;
  Returns (page ++ more)%list.
Proof. reflexivity. Qed.

(** X3: scraping two lists of addresses one after the other is scraping
    the first, then the second, and putting the rows end to end; a
    failure in the first list hides the second. *)
Theorem get_rows_app us vs :
  get_rows handle_url (us ++ vs) =
  a ← get_rows handle_url us;
  b ← get_rows handle_url vs;
  Returns (a ++ b)%list.
Proof.
  induction us as [|u us IH].
  - simpl. by destruct (get_rows handle_url vs).
  - rewrite <- app_comm_cons, !get_rows_cons, IH.
    destruct (page_rows handle_url u) as [page|e]; [|done].
    destruct (get_rows handle_url us) as [a|e]; [|done].
    destruct (get_rows handle_url vs) as [b|e]; [|done].
    cbn [mbind outcome_bind]. by rewrite List.app_assoc.
Qed.

(** X4: [get_rows] returns rows exactly when every page yields its rows,
    and then returns the pages' rows end to end, in the order of the
    addresses, repeated headers included. *)
Theorem get_rows_returns urls rows :
  get_rows handle_url urls = Returns rows ↔
  ∃ pages, Forall2 (λ url page, page_rows handle_url url = Returns page)
                   urls pages
           ∧ rows = List.concat pages.
Proof.
  revert rows. induction urls as [|u urls IH]; intros rows.
  - simpl. split.
    + intros [= <-]. exists []. split; [constructor|done].
    + intros (pages & Hp & ->). by apply Forall2_nil_inv_l in Hp as ->.
  - rewrite get_rows_cons. split.
    + destruct (page_rows handle_url u) as [page|e] eqn:Hu; [|done].
      destruct (get_rows handle_url urls) as [more|e] eqn:Hrest; [|done].
      intros [= <-]. destruct (proj1 (IH more) eq_refl) as (pages & Hp & ->).
      exists (page :: pages). split; [by constructor|done].
    + intros (pages & Hp & ->).
      apply Forall2_cons_inv_l in Hp as (page & pages' & Hu & Hp & ->).
      rewrite Hu. cbn [mbind outcome_bind].
      rewrite (proj2 (IH (List.concat pages'))); [done|]. by exists pages'.
Qed.

Lemma page_rows_nonempty url page :
  page_rows handle_url url = Returns page → page ≠ [].
Proof.
  unfold page_rows. destruct (find_table (handle_url url)) as [table|]; [|done].
  destruct (findAll "tr" table) as [|row0 rest] eqn:Htr.
  - unfold table_to_list. by rewrite Htr.
  - destruct (table_to_list_spec _ _ _ Htr) as (data & -> & _). by intros [= <-].
Qed.

(** X5: every page scraped contributes at least one row, its header. *)
Theorem get_rows_row_per_page urls rows :
  get_rows handle_url urls = Returns rows →
  (List.length urls ≤ List.length rows)%nat.
Proof.
  revert rows. induction urls as [|u urls IH]; intros rows; [simpl; lia|].
  rewrite get_rows_cons.
  destruct (page_rows handle_url u) as [page|e] eqn:Hu; [|done].
  destruct (get_rows handle_url urls) as [more|e] eqn:Hrest; [|done].
  intros [= <-]. rewrite length_app. specialize (IH more eq_refl).
  apply page_rows_nonempty in Hu. destruct page; [done|]. simpl. lia.
Qed.

(** X6: the first page that fails stops [get_rows] with that page's
    exception; the rows of the pages before it are lost. *)
Theorem get_rows_first_failure us u vs e :
  Forall (λ url, ∃ page, page_rows handle_url url = Returns page) us →
  page_rows handle_url u = Raises e →
  get_rows handle_url (us ++ u :: vs) = Raises e.
Proof.
  intros Hus Hu. induction Hus as [|u0 us [page Hu0] _ IH].
  - simpl app. by rewrite get_rows_cons, Hu.
  - rewrite <- app_comm_cons, get_rows_cons, Hu0, IH. done.
Qed.

(** The exceptions of a page: no table of the class, or a table
    without rows. *)
Lemma page_rows_raises url e :
  page_rows handle_url url = Raises e →
  (find_table (handle_url url) = None ∧ e = AttributeError)
  ∨ (∃ table, find_table (handle_url url) = Some table
              ∧ findAll "tr" table = [] ∧ e = IndexError).
Proof.
  unfold page_rows. destruct (find_table (handle_url url)) as [table|].
  - unfold table_to_list. destruct (findAll "tr" table) eqn:Htr; [|done].
    intros [= <-]. right. by exists table.
  - intros [= <-]. by left.
Qed.

End GetRowsFacts.

(** ** [remove_unknown] and [process_rows]: what comes out *)

Section MoreProcessFacts.

Variable fix_camelcase : string → string → string.
Variable strip_label : string → string.

Implicit Types (h : gmap nat (list string)) (r l : nat) (rows out : list nat)
  (args : Args).

Lemma nonempty_insert_inv h r0 name name' fields r :
  h !! r0 = Some (name :: fields) →
  nonempty (<[r0 := name' :: fields]> h) r → nonempty h r.
Proof.
  intros Hr0 (n & fs & Hr). destruct (decide (r0 = r)) as [<-|Hne].
  - by exists name, fields.
  - rewrite lookup_insert_ne in Hr by done. by exists n, fs.
Qed.

Lemma rewrite_names_returns f rows h h' :
  rewrite_names f rows h = Returns h' → Forall (nonempty h) rows.
Proof.
  revert h. induction rows as [|r0 rows IH]; intros h; [constructor|].
  cbn [rewrite_names]. destruct (h !! r0) as [[|n fs]|] eqn:Hr0; [done| |done].
  intros Hrun. constructor; [by exists n, fs|].
  eapply Forall_impl; [exact (IH _ Hrun)|]. intros r.
  exact (nonempty_insert_inv _ _ _ _ _ _ Hr0).
Qed.

Lemma remove_unknown_returns rows h kept :
  remove_unknown rows h = Returns kept → Forall (nonempty h) rows.
Proof.
  revert kept. induction rows as [|r0 rows IH]; intros kept; [constructor|].
  cbn [remove_unknown]. destruct (h !! r0) as [[|n fs]|] eqn:Hr0; [done| |done].
  destruct (remove_unknown rows h) as [kept'|e] eqn:Hrest; [|done].
  intros _. constructor; [by exists n, fs | exact (IH _ eq_refl)].
Qed.

(** [process_rows] returns only if every row has a field 0. *)
Lemma process_rows_returns rows args h res :
  process_rows fix_camelcase strip_label rows args h = Returns res →
  Forall (nonempty h) rows.
Proof.
  unfold process_rows. destruct (known args).
  - destruct (remove_unknown rows h) as [kept|e] eqn:Hk; [|done].
    intros _. exact (remove_unknown_returns _ _ _ Hk).
  - cbn [mbind outcome_bind].
    destruct (rewrite_names (clean_name fix_camelcase) rows h) as [h1|e] eqn:H1;
      [|done].
    intros _. exact (rewrite_names_returns _ _ _ _ H1).
Qed.

Lemma filter_sublist {A} (f : A → bool) (xs : list A) :
  sublist (List.filter f xs) xs.
Proof.
  induction xs as [|x xs IH]; [constructor|]. simpl.
  destruct (f x); by constructor.
Qed.

Lemma filter_idemp {A} (f : A → bool) (xs : list A) :
  List.filter f (List.filter f xs) = List.filter f xs.
Proof.
  induction xs as [|x xs IH]; [done|]. simpl.
  destruct (f x) eqn:Hx; [|done]. simpl. by rewrite Hx, IH.
Qed.

(** X7: [remove_unknown] keeps a subsequence of the rows it is given,
    the rows whose field 0 lacks "Unnamed", and applying it to its own
    result changes nothing. *)
Theorem remove_unknown_subsequence rows h kept :
  remove_unknown rows h = Returns kept →
  sublist kept rows
  ∧ Forall (λ r, keeps h r = true) kept
  ∧ remove_unknown kept h = Returns kept.
Proof.
  intros Hrun. pose proof (remove_unknown_returns _ _ _ Hrun) as Hne.
  rewrite (remove_unknown_spec _ _ Hne) in Hrun. injection Hrun as <-.
  split_and!.
  - apply filter_sublist.
  - apply Forall_forall. intros r Hr%list_elem_of_In.
    by apply filter_In in Hr as [_ ?].
  - rewrite remove_unknown_spec; [by rewrite filter_idemp|].
    by apply filter_Forall.
Qed.

Lemma length_filter_le {A} (f : A → bool) (xs : list A) :
  (List.length (List.filter f xs) ≤ List.length xs)%nat.
Proof. apply sublist_length, filter_sublist. Qed.

(** X8: [process_rows] never returns more rows than it is given, and
    returns as many when [known] is off. *)
Theorem process_rows_row_count rows args h out h' :
  process_rows fix_camelcase strip_label rows args h = Returns (out, h') →
  (List.length out ≤ List.length rows)%nat
  ∧ (known args = false → List.length out = List.length rows).
Proof.
  intros Hrun. pose proof (process_rows_returns _ _ _ _ Hrun) as Hne.
  destruct (process_rows_run fix_camelcase strip_label rows args h Hne)
    as (h2 & Hh2 & Hrun2).
  assert (List.length out = List.length (survivors args rows h)) as ->.
  { rewrite Hrun2 in Hrun. destruct (names args); [|by injection Hrun as <- _].
    destruct (names_only_spec (survivors args rows h) h2)
      as (out' & h3 & Hnames & _ & Hout).
    - eapply Forall_impl; [exact (survivors_nonempty args _ _ Hne)|].
      intros r. eapply nonempty_on_name, Hh2.
    - rewrite Hnames in Hrun. injection Hrun as <- _.
      symmetry. eapply Forall2_length, Hout. }
  unfold survivors. destruct (known args); [|done].
  split; [apply length_filter_le | done].
Qed.

End MoreProcessFacts.

(** ** [process_rows]: the rows that come out *)

Section RowsOut.

Variable fix_camelcase : string → string → string.
Variable strip_label : string → string.

Implicit Types (h : gmap nat (list string)) (r l : nat) (rows out : list nat)
  (args : Args).

(** Each row that comes out, by value, from the row it comes from. *)
Lemma process_rows_out rows args h :
  Forall (nonempty h) rows →
  ∃ out h',
    process_rows fix_camelcase strip_label rows args h = Returns (out, h')
    ∧ Forall2 (λ r l, ∃ x, h !! r = Some x
                 ∧ h' !! l =
                     Some (normal_row
                             (final_name fix_camelcase strip_label args
                                (count r (survivors args rows h)))
                             (names args) x))
              (survivors args rows h) out.
Proof.
  intros Hne.
  destruct (process_rows_run fix_camelcase strip_label rows args h Hne)
    as (h2 & Hh2 & Hrun).
  pose proof (survivors_nonempty args _ _ Hne) as Hsurv.
  unfold normal_row. destruct (names args).
  - assert (Forall (nonempty h2) (survivors args rows h)) as Hsurv2.
    { eapply Forall_impl; [exact Hsurv|]. intros r. eapply nonempty_on_name, Hh2. }
    destruct (names_only_spec _ _ Hsurv2) as (out & h' & Hrun' & Hkeep & Hout).
    exists out, h'. split; [by rewrite Hrun|].
    eapply Forall2_impl; [exact (Forall2_with_Forall _ _ _ _ Hsurv Hout)|].
    intros r l [(n & fs & Hr) (n2 & fs2 & Hr2 & _ & Hl)].
    exists (n :: fs). split; [done|]. rewrite Hl. do 2 f_equal.
    rewrite Hkeep, Hh2, Hr in Hr2.
    + by injection Hr2 as <- _.
    + rewrite Hh2, Hr. by eexists.
  - exists (survivors args rows h), h2. split; [done|].
    apply Forall2_same_length_lookup. split; [done|].
    intros i r l Hr Hl. assert (r = l) as <- by congruence.
    rewrite Forall_forall in Hsurv.
    destruct (Hsurv r) as (n & fs & Hx); [by eapply list_elem_of_lookup_2|].
    exists (n :: fs). split; [done|]. by rewrite Hh2, Hx.
Qed.

Lemma clean_name_no_edge_space name :
  head_space (clean_name fix_camelcase name) = false
  ∧ last_space (clean_name fix_camelcase name) = false.
Proof.
  unfold clean_name, strip. split; [apply rstrip_head, lstrip_head | apply rstrip_last].
Qed.

(** X9: without [strip_labels], field 0 of every row that [process_rows]
    returns has no '/' and no whitespace at either end (what
    [clean_name] cannot remove, as a "[sic]" formed by its own deletions,
    may remain). *)
Theorem returned_names_are_cleaned rows args h out h' :
  strip_labels args = false →
  process_rows fix_camelcase strip_label rows args h = Returns (out, h') →
  Forall (λ l, ∃ name fields,
            h' !! l = Some (name :: fields)
            ∧ ¬ occurs "/" name
            ∧ head_space name = false ∧ last_space name = false)
         out.
Proof.
  intros Hstrip Hrun. pose proof (process_rows_returns _ _ _ _ _ _ Hrun) as Hne.
  destruct (process_rows_out rows args h Hne) as (out' & h'' & Hrun' & Hout).
  rewrite Hrun' in Hrun. injection Hrun as -> ->.
  pose proof (survivors_nonempty args _ _ Hne) as Hsurv.
  assert (Forall (λ r, r ∈ survivors args rows h) (survivors args rows h)) as Hin.
  { by apply Forall_forall. }
  pose proof (Forall2_with_Forall _ _ _ _ Hin
                (Forall2_with_Forall _ _ _ _ Hsurv Hout)) as Hall.
  apply (Forall2_Forall_r _ _ _ _ Hall), Forall_forall. clear Hall.
  intros r _ l (Hr & (n & fs & Hx) & x & Hx' & Hl).
  assert (x = n :: fs) as -> by congruence.
  assert (∃ k, count r (survivors args rows h) = S k) as [k Hk].
  { unfold count. apply list_elem_of_In, (count_occ_In Nat.eq_dec) in Hr.
    destruct (count_occ Nat.eq_dec (survivors args rows h) r); [lia|by eexists]. }
  destruct (clean_name_no_edge_space
              (Nat.iter k (clean_name fix_camelcase) n)) as [Hh Hlast].
  pose proof (clean_name_no_slash fix_camelcase
                (Nat.iter k (clean_name fix_camelcase) n)) as Hslash.
  rewrite Hk in Hl. unfold normal_row, on_name, final_name in Hl.
  rewrite Hstrip in Hl. cbv beta zeta in Hl. rewrite Nat.iter_succ in Hl.
  destruct (names args); eauto 10.
Qed.

End RowsOut.

(** ** [main]: the run as a whole *)

Section RunFacts.

Variable fix_camelcase : string → string → string.
Variable strip_label : string → string.
Variable handle_url : string → node.
Variable confirm : string → bool.
Variable URLS_values : list string.

Implicit Types (h : gmap nat (list string)) (locs : list nat)
  (rows : list (list string)) (args : Args).

Lemma alloc_rows_spec rows h0 locs h :
  alloc_rows rows h0 = (locs, h) →
  NoDup locs
  ∧ Forall (λ l, h0 !! l = None) locs
  ∧ Forall2 (λ l r, h !! l = Some r) locs rows
  ∧ ∀ l, is_Some (h0 !! l) → h !! l = h0 !! l.
Proof.
  revert h0 locs h. induction rows as [|r rows IH]; intros h0 locs h.
  - intros [= <- <-]. split_and!; by constructor.
  - cbn [alloc_rows]. destruct (alloc r h0) as [l h1] eqn:Hal.
    destruct (alloc_rows rows h1) as [ls h2] eqn:Hrest. intros [= <- <-].
    apply alloc_fresh in Hal as [Hl ->].
    destruct (IH _ _ _ Hrest) as (Hnd & Hfresh & Hval & Hkeep).
    assert (h2 !! l = Some r) as Hlr.
    { rewrite Hkeep; rewrite lookup_insert_eq; by eauto. }
    assert (l ∉ ls) as Hnin.
    { intros Hin. rewrite Forall_forall in Hfresh.
      specialize (Hfresh l Hin). by rewrite lookup_insert_eq in Hfresh. }
    split_and!.
    + by constructor.
    + constructor; [done|]. eapply Forall_impl; [exact Hfresh|].
      intros l' Hl'. cbv beta in Hl'. destruct (decide (l = l')) as [->|Hne].
      * by rewrite lookup_insert_eq in Hl'.
      * by rewrite lookup_insert_ne in Hl'.
    + by constructor.
    + intros x Hx. assert (l ≠ x) as Hne.
      { intros ->. rewrite Hl in Hx. by destruct Hx. }
      rewrite Hkeep; by rewrite lookup_insert_ne.
Qed.

Lemma read_values h locs rows :
  Forall2 (λ l r, h !! l = Some r) locs rows → read h locs = Some <$> rows.
Proof.
  unfold read. induction 1 as [|l r locs rows Hl _ IH]; [done|].
  rewrite !fmap_cons. by rewrite Hl, IH.
Qed.

Lemma keeps_named h l r : h !! l = Some r → keeps h l = named r.
Proof. unfold keeps. intros ->. by destruct r. Qed.

Lemma survivors_values args h locs rows :
  NoDup locs →
  Forall2 (λ l r, h !! l = Some r) locs rows →
  NoDup (survivors args locs h)
  ∧ Forall2 (λ l r, h !! l = Some r) (survivors args locs h) (kept_rows args rows).
Proof.
  intros Hnd Hval. unfold survivors, kept_rows. destruct (known args); [|done].
  split; [eapply sublist_NoDup; [done|apply filter_sublist]|].
  clear Hnd. induction Hval as [|l r locs rows Hl _ IH]; [constructor|].
  simpl. rewrite (keeps_named _ _ _ Hl). destruct (named r); [by constructor|done].
Qed.

Lemma count_NoDup l locs : NoDup locs → l ∈ locs → count l locs = 1.
Proof.
  intros Hnd Hin. unfold count.
  apply (proj1 (NoDup_count_occ' Nat.eq_dec locs)); [by apply NoDup_ListNoDup|].
  by apply list_elem_of_In.
Qed.

(** The rows scraped are objects of their own, so each name is rewritten
    once. *)
Lemma main_rows_returns args rows :
  Forall (λ r, r ≠ []) rows →
  main_rows fix_camelcase strip_label args rows =
  Returns (List.length rows,
           Some <$> (normal_row (final_name fix_camelcase strip_label args 1)
                                (names args)
                       <$> kept_rows args rows)).
Proof.
  intros Hrows. unfold main_rows.
  destruct (alloc_rows rows ∅) as [locs h] eqn:Hal.
  destruct (alloc_rows_spec _ _ _ _ Hal) as (Hnd & _ & Hval & _).
  assert (Forall (nonempty h) locs) as Hne.
  { eapply Forall2_Forall_l; [exact Hval|]. eapply Forall_impl; [exact Hrows|].
    intros [|n fs] Hr l Hl; [done|]. by exists n, fs. }
  destruct (process_rows_out fix_camelcase strip_label locs args h Hne)
    as (out & h' & -> & Hout).
  destruct (survivors_values args h locs rows Hnd Hval) as [Hnd' Hval'].
  cbn [mbind outcome_bind]. do 2 f_equal. apply read_values.
  apply Forall2_fmap_r, Forall2_same_length_lookup. split.
  - rewrite <- (Forall2_length _ _ _ Hout). by eapply Forall2_length.
  - intros i l v Hl Hv.
    destruct (Forall2_lookup_r _ _ _ _ _ Hout Hl) as (r & Hr & x & Hx & Hl').
    pose proof (Forall2_lookup_lr _ _ _ _ _ _ Hval' Hr Hv) as Hrv. simpl in Hrv.
    assert (x = v) as -> by congruence.
    rewrite (count_NoDup r _ Hnd') in Hl'; [done|].
    by eapply list_elem_of_lookup_2.
Qed.

(** An empty row among the rows scraped stops the run. *)
Lemma main_rows_raises args rows :
  [] ∈ rows →
  main_rows fix_camelcase strip_label args rows = Raises IndexError.
Proof.
  intros Hin. unfold main_rows.
  destruct (alloc_rows rows ∅) as [locs h] eqn:Hal.
  destruct (alloc_rows_spec _ _ _ _ Hal) as (_ & _ & Hval & _).
  assert (Forall (λ l, is_Some (h !! l)) locs) as Hall.
  { apply Forall_forall. intros l Hl.
    apply list_elem_of_lookup in Hl as [i Hi].
    destruct (Forall2_lookup_l _ _ _ _ _ Hval Hi) as (r & _ & Hr). by eexists. }
  assert (Exists (λ l, h !! l = Some []) locs) as Hex.
  { apply list_elem_of_lookup in Hin as [i Hi].
    destruct (Forall2_lookup_r _ _ _ _ _ Hval Hi) as (l & Hl & Hr).
    apply Exists_exists. exists l. split; [by eapply list_elem_of_lookup_2|done]. }
  assert (process_rows fix_camelcase strip_label locs args h = Raises IndexError)
    as ->; [|done].
  unfold process_rows. destruct (known args).
  - by rewrite remove_unknown_empty.
  - cbn [mbind outcome_bind]. by rewrite rewrite_names_empty.
Qed.

Lemma main_scrapes args urls :
  scrapes confirm URLS_values args urls →
  main fix_camelcase strip_label handle_url confirm URLS_values args =
  rows ← get_rows handle_url urls; main_rows fix_camelcase strip_label args rows.
Proof.
  unfold scrapes, main, main_rows. destruct (bool_decide (type_ args = "all")).
  - by intros [-> ->].
  - by intros (url & -> & ->).
Qed.

Lemma get_rows_raises urls e :
  get_rows handle_url urls = Raises e → e = AttributeError ∨ e = IndexError.
Proof.
  induction urls as [|u urls IH]; [done|]. rewrite get_rows_cons.
  destruct (page_rows handle_url u) as [page|e'] eqn:Hu.
  - destruct (get_rows handle_url urls) as [more|e'']; [done|].
    intros [= <-]. by apply IH.
  - intros [= <-]. destruct (page_rows_raises _ _ _ Hu) as [[_ ->]|(_ & _ & _ & ->)]; auto.
Qed.

Lemma dict_lookup_None d key :
  dict_lookup d key = None → key ∉ fst <$> d.
Proof.
  induction d as [|[k v] d IH]; [intros _; apply not_elem_of_nil|].
  simpl. destruct (bool_decide (k = key)) eqn:Hk; [done|].
  apply bool_decide_eq_false in Hk. intros Hd [->|Hin]%elem_of_cons; [done|].
  by apply IH.
Qed.

(** How [main] comes by its addresses, or fails to. *)
Lemma main_selection args :
  (∃ urls, scrapes confirm URLS_values args urls)
  ∨ (type_ args = "all" ∧ confirm "scrape ALL categories" = false
     ∧ main fix_camelcase strip_label handle_url confirm URLS_values args
       = Raises UnboundLocalError)
  ∨ ((type_ args ∉ type_choices)
     ∧ main fix_camelcase strip_label handle_url confirm URLS_values args = Raises KeyError).
Proof.
  unfold scrapes, main. destruct (bool_decide (type_ args = "all")) eqn:Hall.
  - apply bool_decide_eq_true in Hall.
    destruct (confirm "scrape ALL categories") eqn:Hc; [left; eauto|].
    right; left. done.
  - apply bool_decide_eq_false in Hall.
    destruct (dict_lookup URLS (type_ args)) as [url|] eqn:Hurl; [left; eauto|].
    right; right. split; [|done]. unfold type_choices.
    intros [Hin|Hin%list_elem_of_singleton]%elem_of_app; [|done].
    by apply dict_lookup_None in Hurl.
Qed.

(** X10: when [main] has its addresses (one category's, or for "all"
    those of [URLS.values()] in whatever order the dictionary gives them)
    and [get_rows] returns rows that all have a field 0, [main] returns
    their number and, in the order scraped, the rows [known] keeps, each
    with its name cleaned once (and its label stripped once, if asked)
    and, under [names], cut down to that name. *)
Theorem main_returns args urls rows :
  scrapes confirm URLS_values args urls →
  get_rows handle_url urls = Returns rows →
  Forall (λ r, r ≠ []) rows →
  main fix_camelcase strip_label handle_url confirm URLS_values args =
  Returns (List.length rows,
           Some <$> (normal_row (final_name fix_camelcase strip_label args 1)
                                (names args)
                       <$> kept_rows args rows)).
Proof.
  intros Hurls Hget Hrows. rewrite (main_scrapes _ _ Hurls), Hget.
  by apply main_rows_returns.
Qed.

(** X11: when a row scraped has no field at all (the header of a table
    whose first row has no header cells; a data row whose only cell has
    no hyperlink), [main] raises [IndexError], whatever the options. *)
Theorem main_empty_row args urls rows :
  scrapes confirm URLS_values args urls →
  get_rows handle_url urls = Returns rows →
  [] ∈ rows →
  main fix_camelcase strip_label handle_url confirm URLS_values args = Raises IndexError.
Proof.
  intros Hurls Hget Hin. rewrite (main_scrapes _ _ Hurls), Hget.
  by apply main_rows_raises.
Qed.

(** X12: when the page fetch and the helpers of [scrapekit] return, the
    exceptions [main] raises up to [process_rows] are: [KeyError] only
    for a category that [make_parser] does not let through;
    [UnboundLocalError] only when "all" is declined; otherwise the
    exception of [get_rows] over the addresses scraped, which is
    [AttributeError] or [IndexError], or [IndexError] for an empty row. *)
Theorem main_raises args e :
  main fix_camelcase strip_label handle_url confirm URLS_values args = Raises e →
  (e = KeyError ∧ (type_ args ∉ type_choices))
  ∨ (e = UnboundLocalError ∧ type_ args = "all"
     ∧ confirm "scrape ALL categories" = false)
  ∨ (∃ urls, scrapes confirm URLS_values args urls
             ∧ get_rows handle_url urls = Raises e
             ∧ (e = AttributeError ∨ e = IndexError))
  ∨ (∃ urls rows, scrapes confirm URLS_values args urls
                  ∧ get_rows handle_url urls = Returns rows
                  ∧ [] ∈ rows ∧ e = IndexError).
Proof.
  intros Hrun.
  destruct (main_selection args) as [[urls Hurls]|[(Hall & Hc & Hm)|[Hty Hm]]].
  - rewrite (main_scrapes _ _ Hurls) in Hrun.
    destruct (get_rows handle_url urls) as [rows|e'] eqn:Hget.
    + cbn [mbind outcome_bind] in Hrun.
      destruct (decide ([] ∈ rows)) as [Hin|Hnin].
      * rewrite (main_rows_raises _ _ Hin) in Hrun. injection Hrun as <-.
        do 3 right. by exists urls, rows.
      * rewrite main_rows_returns in Hrun; [done|].
        apply Forall_forall. by intros r Hr ->.
    + injection Hrun as ->. right; right; left. exists urls.
      split_and!; [done..|]. by eapply get_rows_raises.
  - rewrite Hm in Hrun. injection Hrun as <-. right; left. done.
  - rewrite Hm in Hrun. injection Hrun as <-. by left.
Qed.

(** X13: the summary of [main] never counts more rows kept than rows
    scraped, and counts as many when [known] is off. *)
Theorem main_kept_le_scraped args original_count kept :
  main fix_camelcase strip_label handle_url confirm URLS_values args
    = Returns (original_count, kept) →
  (List.length kept ≤ original_count)%nat
  ∧ (known args = false → List.length kept = original_count).
Proof.
  intros Hrun.
  destruct (main_selection args) as [[urls Hurls]|[(_ & _ & Hm)|[_ Hm]]];
    [|congruence..].
  rewrite (main_scrapes _ _ Hurls) in Hrun.
  destruct (get_rows handle_url urls) as [rows|e'] eqn:Hget; [|done].
  cbn [mbind outcome_bind] in Hrun.
  destruct (decide ([] ∈ rows)) as [Hin|Hnin].
  { by rewrite (main_rows_raises _ _ Hin) in Hrun. }
  rewrite main_rows_returns in Hrun.
  2: { apply Forall_forall. by intros r Hr ->. }
  injection Hrun as <- <-. rewrite !length_fmap. unfold kept_rows.
  destruct (known args); [|done]. split; [apply length_filter_le | done].
Qed.

End RunFacts.

(** ** [write_file] and the end of [main] *)

Section OutputFacts.

Variable DATADIR : string.

Implicit Types (args a b : Args) (rows : list (list string)).

Lemma join_cons_tail sep x l :
  join sep (x :: l) =
  x +:+ match l with [] => "" | _ :: _ => sep +:+ join sep l end.
Proof. destruct l; [by rewrite sapp_nil_r | done]. Qed.

Lemma filename_form args fmt :
  format args = Some fmt →
  filename DATADIR args =
  Some (DATADIR +:+ "ponylist_" +:+ type_ args +:+ flag_suffix args
        +:+ "." +:+ fmt).
Proof.
  intros Hfmt. unfold filename, components, flag_suffix. rewrite Hfmt.
  cbn [mbind option_bind]. do 2 f_equal.
  destruct (names args), (strip_labels args), (known args);
    cbn [app]; rewrite ?join_cons2; cbn [join];
    rewrite ?sapp_assoc, ?sapp_nil_r; reflexivity.
Qed.

(** X14: two option sets for the same category never share a file name
    unless they agree on [names], [strip_labels], [known] and the format. *)
Theorem filename_tells_flags a b name :
  type_ a = type_ b →
  filename DATADIR a = Some name →
  filename DATADIR b = Some name →
  names a = names b ∧ strip_labels a = strip_labels b ∧ known a = known b
  ∧ format a = format b.
Proof.
  intros Hty Ha Hb.
  destruct (format a) as [fa|] eqn:Hfa; [|by unfold filename in Ha; rewrite Hfa in Ha].
  destruct (format b) as [fb|] eqn:Hfb; [|by unfold filename in Hb; rewrite Hfb in Hb].
  rewrite (filename_form a fa Hfa) in Ha. rewrite (filename_form b fb Hfb) in Hb.
  rewrite <- Hb, Hty in Ha. injection Ha as Heq.
  apply (inj (String.app _)) in Heq.
  apply (inj (String.app "ponylist_")) in Heq.
  apply (inj (String.app _)) in Heq.
  revert Heq. unfold flag_suffix.
  destruct (names a), (names b), (strip_labels a), (strip_labels b),
    (known a), (known b); cbn; intros Heq; by simplify_eq.
Qed.

Lemma filename_prefix args :
  filename DATADIR args = String.app DATADIR <$> filename "" args.
Proof. unfold filename. by destruct (format args). Qed.

Lemma filename_key args fmt :
  format args = Some fmt →
  filename "" args =
  filename "" (options_of (type_ args, names args, strip_labels args,
                           known args, fmt)).
Proof. intros Hfmt. unfold filename, components. by rewrite Hfmt. Qed.

Lemma bool_in_both (b : bool) : b ∈ [false; true].
Proof. destruct b; set_solver. Qed.

Lemma key_in_all_keys args fmt :
  accepted args → format args = Some fmt →
  (type_ args, names args, strip_labels args, known args, fmt) ∈ all_keys.
Proof.
  intros (Hty & Hfmt & _) Hf. unfold all_keys.
  apply list_elem_of_bind. exists (type_ args). split; [|done].
  apply list_elem_of_bind. exists (names args). split; [|apply bool_in_both].
  apply list_elem_of_bind. exists (strip_labels args). split; [|apply bool_in_both].
  apply list_elem_of_bind. exists (known args). split; [|apply bool_in_both].
  apply list_elem_of_bind. exists fmt. split; [|by apply Hfmt].
  by apply list_elem_of_singleton.
Qed.

Lemma NoDup_fmap_inj_on {A B} (f : A → B) (xs : list A) x y :
  NoDup (f <$> xs) → x ∈ xs → y ∈ xs → f x = f y → x = y.
Proof.
  induction xs as [|z xs IH]; [by intros _ ?%elem_of_nil|].
  rewrite fmap_cons, NoDup_cons.
  intros [Hz Hnd] [->|Hx]%elem_of_cons [->|Hy]%elem_of_cons Hf; [done| | |by apply IH].
  - destruct Hz. rewrite Hf. by apply list_elem_of_fmap_2.
  - destruct Hz. rewrite <- Hf. by apply list_elem_of_fmap_2.
Qed.

Lemma all_names_differ : NoDup ((λ key, filename "" (options_of key)) <$> all_keys).
Proof. apply (bool_decide_unpack _). vm_compute. exact I. Qed.

(** X15: for the categories and formats [make_parser] lets through, the
    file name tells the category, the three flags and the format: two
    runs that differ in any of them write to different files. *)
Theorem filename_tells_options a b name :
  accepted a → accepted b →
  filename DATADIR a = Some name →
  filename DATADIR b = Some name →
  type_ a = type_ b ∧ names a = names b ∧ strip_labels a = strip_labels b
  ∧ known a = known b ∧ format a = format b.
Proof.
  intros Ha Hb Hna Hnb.
  destruct (format a) as [fa|] eqn:Hfa; [|by unfold filename in Hna; rewrite Hfa in Hna].
  destruct (format b) as [fb|] eqn:Hfb; [|by unfold filename in Hnb; rewrite Hfb in Hnb].
  assert (filename "" a = filename "" b) as Heq.
  { rewrite filename_prefix in Hna, Hnb.
    destruct (filename "" a) as [x|]; [|done].
    destruct (filename "" b) as [y|]; [|done].
    simpl in Hna, Hnb. f_equal. apply (inj (String.app DATADIR)). congruence. }
  rewrite (filename_key a fa Hfa), (filename_key b fb Hfb) in Heq.
  assert ((type_ a, names a, strip_labels a, known a, fa)
          = (type_ b, names b, strip_labels b, known b, fb)) as Hkeys.
  { eapply (NoDup_fmap_inj_on _ _ _ _ all_names_differ);
      [by apply key_in_all_keys..|done]. }
  by simplify_eq.
Qed.

Lemma filter_row_writer_pprint rows :
  List.filter is_row_writer (Pprint <$> rows) = [].
Proof. induction rows as [|r rows IH]; [done|]. by rewrite fmap_cons. Qed.

Lemma write_file_events rows args :
  write_file DATADIR rows args =
  name ← filename DATADIR args;
  Some (Print ("Writing to " +:+ name +:+ ".")
        :: (if bool_decide (format args = Some "csv")
            then [WriteCsv rows name]
            else if bool_decide (format args = Some "txt")
            then [WriteTxt rows name]
            else [])).
Proof. reflexivity. Qed.

(** X16: [write_file] fails (on ['.' + args.format]) exactly when no
    format was given, and the end of [main] never fails: it enters
    [write_file] under [if args.format:] only. *)
Theorem report_never_fails args original_count rows :
  (write_file DATADIR rows args = None ↔ format args = None)
  ∧ is_Some (report DATADIR args original_count rows).
Proof.
  split.
  - unfold write_file, filename. by destruct (format args).
  - unfold report. destruct (images args); [by eexists|].
    unfold format_given, write_file, filename.
    destruct (format args) as [[|c fmt]|]; by eexists.
Qed.

(** X17: the end of [main] calls a row writer of [scrapekit] only outside
    the image mode and only for the formats "csv" and "txt": then once,
    with the rows it was given, under the name [write_file] builds.  In
    image mode the rows go to [images.get_images] and the sheet maker
    instead, and the program exits. *)
Theorem report_calls_one_row_writer args original_count rows evs :
  report DATADIR args original_count rows = Some evs →
  List.filter is_row_writer evs =
    (if images args then []
     else match filename DATADIR args with
          | None => []
          | Some name =>
              if bool_decide (format args = Some "csv")
              then [WriteCsv rows name]
              else if bool_decide (format args = Some "txt")
              then [WriteTxt rows name]
              else []
          end)
  ∧ (images args = true →
     evs = [ GetImages rows (DATA_DIR +:+ "images_" +:+ type_ args +:+ "/");
             MkImgSheet (DATA_DIR +:+ "images_" +:+ type_ args +:+ "/");
             Exit ]).
Proof.
  unfold report. destruct (images args); [by intros [= <-]|].
  intros Hrun. split; [|done]. revert Hrun.
  assert (∀ shown summary written : list event,
            List.filter is_row_writer shown = [] →
            List.filter is_row_writer summary = [] →
            List.filter is_row_writer (shown ++ summary ++ written)
            = List.filter is_row_writer written) as Hfilter.
  { intros shown summary written Hs Hp. by rewrite !List.filter_app, Hs, Hp. }
  assert (List.filter is_row_writer
            (if bool_decide (0 < verbose args) then Pprint <$> rows else []) = [])
    as Hshown.
  { destruct (bool_decide (0 < verbose args)); [apply filter_row_writer_pprint|done]. }
  destruct (format_given args) eqn:Hgiven.
  - rewrite write_file_events.
    destruct (filename DATADIR args) as [name|]; [|done].
    cbn [mbind option_bind]. intros [= <-]. rewrite Hfilter; [|done|].
    + cbn [List.filter is_row_writer].
      destruct (bool_decide (format args = Some "csv")); [done|].
      by destruct (bool_decide (format args = Some "txt")).
    + by destruct (quiet args).
  - cbn [mbind option_bind]. intros [= <-]. rewrite Hfilter; [|done|].
    + unfold format_given in Hgiven. unfold filename.
      destruct (format args) as [[|c fmt]|]; [|done|done].
      cbn [mbind option_bind]. rewrite !bool_decide_eq_false_2; done.
    + by destruct (quiet args).
Qed.

End OutputFacts.

(** ** The further facts at sample inputs *)

Lemma get_rows_row_per_page_witness :
  (List.length ["a"; "b"] ≤ List.length (sample_rows ++ sample_rows))%nat.
Proof.
  apply (get_rows_row_per_page Scrapekit.handle_url). vm_compute. reflexivity.
Defined.

Lemma get_rows_first_failure_witness :
  get_rows pages_one_missing (["a"] ++ "missing" :: ["b"]) = Raises AttributeError.
Proof.
  apply get_rows_first_failure.
  - repeat constructor. eexists. vm_compute. reflexivity.
  - reflexivity.
Defined.

Lemma remove_unknown_subsequence_witness :
  sublist [0; 2] [0; 1; 2]
  ∧ Forall (λ r, keeps store_ponies r = true) [0; 2]
  ∧ remove_unknown [0; 2] store_ponies = Returns [0; 2].
Proof.
  apply (remove_unknown_subsequence [0; 1; 2] store_ponies [0; 2]). reflexivity.
Defined.

Lemma process_rows_row_count_witness :
  (List.length [0; 2] ≤ List.length [0; 1; 2])%nat
  ∧ (known (with_known true (plain "foals")) = false →
     List.length [0; 2] = List.length [0; 1; 2]).
Proof.
  apply (process_rows_row_count Scrapekit.fix_camelcase Scrapekit.strip_label
           [0; 1; 2] (with_known true (plain "foals")) store_ponies
           [0; 2] store_ponies_known).
  vm_compute. reflexivity.
Defined.

Lemma returned_names_are_cleaned_witness :
  Forall (λ l, ∃ name fields,
            store_ponies_known !! l = Some (name :: fields)
            ∧ ¬ occurs "/" name
            ∧ head_space name = false ∧ last_space name = false)
         [0; 2].
Proof.
  apply (returned_names_are_cleaned Scrapekit.fix_camelcase Scrapekit.strip_label
           [0; 1; 2] (with_known true (plain "foals")) store_ponies).
  - reflexivity.
  - vm_compute. reflexivity.
Defined.

Lemma main_returns_witness :
  main Scrapekit.fix_camelcase Scrapekit.strip_label Scrapekit.handle_url
       Scrapekit.decline (snd <$> URLS) (with_known true (plain "foals"))
  = Returns (4, [Some ["Name"; "Kind"; "Image"];
                 Some ["Applejack"; "Earth"; "/wiki/File:Applejack.png"];
                 Some ["BigorSmall"; "Unicorn"; "None"]]).
Proof.
  apply (main_returns Scrapekit.fix_camelcase Scrapekit.strip_label
           Scrapekit.handle_url Scrapekit.decline (snd <$> URLS)
           (with_known true (plain "foals"))
           ["http://mlp.wikia.com/wiki/List_of_ponies/Foals"] sample_rows).
  - eexists. split; reflexivity.
  - vm_compute. reflexivity.
  - repeat constructor; discriminate.
Defined.

Lemma main_empty_row_witness :
  main Scrapekit.fix_camelcase Scrapekit.strip_label pages_no_header
       Scrapekit.decline (snd <$> URLS) (plain "foals")
  = Raises IndexError.
Proof.
  apply (main_empty_row Scrapekit.fix_camelcase Scrapekit.strip_label
           pages_no_header Scrapekit.decline (snd <$> URLS) (plain "foals")
           ["http://mlp.wikia.com/wiki/List_of_ponies/Foals"]
           [[]; ["Applejack"; "/a.png"]]).
  - eexists. split; reflexivity.
  - vm_compute. reflexivity.
  - apply list_elem_of_here.
Defined.

Lemma main_raises_witness :
  (UnboundLocalError = KeyError ∧ (type_ (plain "all") ∉ type_choices))
  ∨ (UnboundLocalError = UnboundLocalError ∧ type_ (plain "all") = "all"
     ∧ Scrapekit.decline "scrape ALL categories" = false)
  ∨ (∃ urls, scrapes Scrapekit.decline (snd <$> URLS) (plain "all") urls
             ∧ get_rows Scrapekit.handle_url urls = Raises UnboundLocalError
             ∧ (UnboundLocalError = AttributeError
                ∨ UnboundLocalError = IndexError))
  ∨ (∃ urls rows, scrapes Scrapekit.decline (snd <$> URLS) (plain "all") urls
                  ∧ get_rows Scrapekit.handle_url urls = Returns rows
                  ∧ [] ∈ rows ∧ UnboundLocalError = IndexError).
Proof.
  apply (main_raises Scrapekit.fix_camelcase Scrapekit.strip_label
           Scrapekit.handle_url Scrapekit.decline (snd <$> URLS) (plain "all")).
  reflexivity.
Defined.

Lemma main_kept_le_scraped_witness :
  (List.length [Some ["Name"; "Kind"; "Image"];
                Some ["Applejack"; "Earth"; "/wiki/File:Applejack.png"];
                Some ["BigorSmall"; "Unicorn"; "None"]] ≤ 4)%nat
  ∧ (known (with_known true (plain "foals")) = false →
     List.length [Some ["Name"; "Kind"; "Image"];
                  Some ["Applejack"; "Earth"; "/wiki/File:Applejack.png"];
                  Some ["BigorSmall"; "Unicorn"; "None"]] = 4).
Proof.
  apply (main_kept_le_scraped Scrapekit.fix_camelcase Scrapekit.strip_label
           Scrapekit.handle_url Scrapekit.decline (snd <$> URLS)
           (with_known true (plain "foals"))).
  vm_compute. reflexivity.
Defined.

Lemma csv_args_accepted : accepted csv_args.
Proof.
  split_and!.
  - apply (bool_decide_unpack _). vm_compute. exact I.
  - intros fmt [= <-]. apply (bool_decide_unpack _). vm_compute. exact I.
  - intros [Hv _]. simpl in Hv. lia.
Qed.

Lemma filename_tells_flags_witness :
  names csv_args = names csv_args
  ∧ strip_labels csv_args = strip_labels csv_args
  ∧ known csv_args = known csv_args
  ∧ format csv_args = format csv_args.
Proof.
  apply (filename_tells_flags "./data/" csv_args csv_args
           "./data/ponylist_foals_names_known.csv"); reflexivity.
Defined.

Lemma filename_tells_options_witness :
  type_ csv_args = type_ csv_args
  ∧ names csv_args = names csv_args
  ∧ strip_labels csv_args = strip_labels csv_args
  ∧ known csv_args = known csv_args
  ∧ format csv_args = format csv_args.
Proof.
  apply (filename_tells_options "./data/" csv_args csv_args
           "./data/ponylist_foals_names_known.csv");
    [apply csv_args_accepted..|reflexivity|reflexivity].
Defined.

Lemma report_calls_one_row_writer_witness :
  ∃ evs, report "./data/" csv_args 4 [["Name"]; ["Applejack"]] = Some evs
         ∧ List.filter is_row_writer evs
           = [WriteCsv [["Name"]; ["Applejack"]]
                       "./data/ponylist_foals_names_known.csv"].
Proof.
  eexists. split; [reflexivity|].
  exact (proj1 (report_calls_one_row_writer "./data/" csv_args 4
                  [["Name"]; ["Applejack"]] _ eq_refl)).
Defined.

(** The lines of the summary and the file name, as printed. *)
Example report_sample :
  report "./data/" csv_args 4 [["Name"]; ["Applejack"]] =
  Some [ Print "";
         Print "          ------------------------------------------------------------          ";
         Print "                                    SUMMARY                                     ";
         Print "";
         Print "Type selected:      foals";
         Print "Total rows scraped: 4";
         Print "Total rows kept:    2";
         Print "Writing to ./data/ponylist_foals_names_known.csv.";
         WriteCsv [["Name"]; ["Applejack"]]
                  "./data/ponylist_foals_names_known.csv" ].
Proof. vm_compute. reflexivity. Qed.
